(** * godog: the step registry and the feature runner of [suite.go]

    A shallow embedding of [suite.go]: the step registry ([Step]), step
    resolution and guarded execution ([runStep]), the skip-on-failure loops
    ([runSteps], [skipSteps]) and the per-feature driver ([runFeature]),
    followed by the properties of the engine; of [parseProgressOutput],
    with which the tests read a progress output back; and a model of the
    concurrency coordinator and of the strict-mode decision, which the
    sources do not hold.

    Conventions of the embedding.
    - The formatter [s.fmt] is an event sink: every call of one of its
      methods is recorded, in order, in the output of the computation.
    - A handler is Go code with arbitrary effects: it is a function of its
      arguments and of a [World] it may change.  Each invocation is
      recorded in the output as a [HandleStep] event, next to the formatter
      calls, so that "no handler runs" is a statement about the output.
    - A Go panic that nothing recovers ends the computation: [Crashed]. *)

From Stdlib Require Import String Ascii List ZArith Bool Arith Lia.
Import ListNotations.
Open Scope string_scope.

(** ** Values of the Go runtime and of package [strconv] *)

(** [type Arg string] *)
Definition Arg : Type := string.

(** Go [error] values.  [errPending] is the package variable
    [var errPending = fmt.Errorf("pending step")]; errors are compared by
    identity in Go, so an error a handler builds with the same message is a
    different value ([Errorf "pending step"]). *)
Inductive goerror : Type :=
| errPending
| Errorf (msg : string)
| RuntimeError (msg : string).

(** The argument of a [panic]: a value that implements [error], or one that
    does not (the strings [Arg.Float] and [Arg.Int] panic with; any other
    non-error value behaves the same under [e.(error)], up to the name of
    its type in the text of the resulting panic).  A [panic(nil)] is left
    out. *)
Inductive PanicValue : Type :=
| PanicError (e : goerror)
| PanicString (s : string).

(** What a call of [HandleStep] does: return an error (or nil), or panic. *)
Inductive HandlerResult : Type :=
| Return (err : option goerror)
| Panic (v : PanicValue).

(** [*regexp.Regexp], by what the one method the runner calls returns:
    nil when the text does not match, otherwise the whole match followed
    by the capture groups in order. *)
Record Regexp : Type := mkRegexp { FindStringSubmatch : string -> list string }.

Inductive NumError : Type := ErrSyntax | ErrRange.

Definition digitOf (c : ascii) : option Z :=
  let n := nat_of_ascii c in
  if (48 <=? n)%nat && (n <=? 57)%nat then Some (Z.of_nat (n - 48)) else None.

Definition maxUint64 : Z := 2 ^ 64 - 1.

(** The digit loop of [strconv.ParseUint(s, 10, 64)]. *)
Fixpoint parseUintLoop (s : string) (n : Z) : Z + NumError :=
  match s with
  | EmptyString => inl n
  | String c rest =>
      match digitOf c with
      | None => inr ErrSyntax
      | Some d =>
          if (maxUint64 / 10 + 1 <=? n)%Z then inr ErrRange
          else
            let n1 := (n * 10 + d)%Z in
            if (maxUint64 <? n1)%Z then inr ErrRange else parseUintLoop rest n1
      end
  end.

Definition ParseUint (s : string) : Z + NumError :=
  match s with
  | EmptyString => inr ErrSyntax
  | _ => parseUintLoop s 0%Z
  end.

(** [strconv.ParseInt(s, 10, 0)] where [int] has 64 bits. *)
Definition ParseInt (s : string) : Z + NumError :=
  match s with
  | EmptyString => inr ErrSyntax
  | String c rest =>
      let neg := Ascii.eqb c "-"%char in
      let s' := if Ascii.eqb c "+"%char || neg then rest else s in
      match ParseUint s' with
      | inr e => inr e
      | inl un =>
          let cutoff := (2 ^ 63)%Z in
          if negb neg && (cutoff <=? un)%Z then inr ErrRange
          else if neg && (cutoff <? un)%Z then inr ErrRange
          else inl (if neg then (- un)%Z else un)
      end
  end.

Definition dquote : string := String (ascii_of_nat 34) EmptyString.

(** The method [Error] of [NumError]; [strconv.Quote] is taken to add the two quotes
    only, which is what it does for text without quotes, backslashes or
    non-printing characters. *)
Definition NumError_Error (fn num : string) (e : NumError) : string :=
  "strconv." ++ fn ++ ": parsing " ++ dquote ++ num ++ dquote ++ ": " ++
  match e with ErrSyntax => "invalid syntax" | ErrRange => "value out of range" end.

(** [func (a Arg) Int() int64]: the value, or a panic whose argument is the
    string built by [fmt.Sprintf].  [Float] is the same function over
    [strconv.ParseFloat], with a string panic built the same way; floating
    point values are outside this development. *)
Definition Arg_Int (a : Arg) : Z + PanicValue :=
  match ParseInt a with
  | inl v => inl v
  | inr e =>
      inr (PanicString ("cannot convert " ++ dquote ++ a ++ dquote ++
                        " to int64: " ++ NumError_Error "ParseInt" a e))
  end.

(** [func (a Arg) String() string] *)
Definition Arg_String (a : Arg) : string := a.

(** ** The feature tree of package [gherkin] *)

Module gherkin.

(** Modelled from the spec: package [gherkin] is not part of the sources.
    The runner reads [Text] of a step, [Steps] of a background and of a
    scenario, and [Background] and [Scenarios] of a feature; features and
    scenarios carry a name. *)
Record Step : Type := mkStep { Text : string }.

Record Background : Type := mkBackground { Background_Steps : list Step }.

Record Scenario : Type :=
  mkScenario { Scenario_Title : string; Scenario_Steps : list Step }.

Record Feature : Type :=
  mkFeature { Feature_Title : string;
              Feature_Background : option Background;
              Scenarios : list Scenario }.

End gherkin.

(** ** Outcomes and formatter events *)

(** The argument of [s.fmt.Node]. *)
Inductive Node : Type :=
| NFeature (f : gherkin.Feature)
| NBackground (b : gherkin.Background)
| NScenario (sc : gherkin.Scenario).

(** One entry of the output.  [FmtNode], [FmtPending], [FmtFailed],
    [FmtPassed] and [FmtSkipped] are the calls [s.fmt.Node], [s.fmt.Pending],
    [s.fmt.Failed], [s.fmt.Passed] and [s.fmt.Skipped]; the [*stepMatchHandler]
    they receive is given by its index in [s.steps].  [HandleStep i args]
    records that the handler registered at index [i] was invoked. *)
Inductive Event : Type :=
| FmtNode (n : Node)
| FmtPending (step : gherkin.Step)
| FmtFailed (step : gherkin.Step) (match_ : nat) (err : goerror)
| FmtPassed (step : gherkin.Step) (match_ : nat)
| FmtSkipped (step : gherkin.Step)
| HandleStep (match_ : nat) (args : list Arg).

(** The outcome kinds of the specification's data model. *)
Inductive Outcome : Type := Passed | Failed | Skipped | Pending | Undefined.

(** The outcome a formatter call reports for a step; the formatter of
    [suite.go] has no method for [Undefined]. *)
Definition outcomeOf (e : Event) : option (gherkin.Step * Outcome) :=
  match e with
  | FmtPending st => Some (st, Pending)
  | FmtFailed st _ _ => Some (st, Failed)
  | FmtPassed st _ => Some (st, Passed)
  | FmtSkipped st => Some (st, Skipped)
  | FmtNode _ | HandleStep _ _ => None
  end.

Definition isOutcome (o : Outcome) (e : Event) : bool :=
  match outcomeOf e, o with
  | Some (_, Passed), Passed | Some (_, Failed), Failed
  | Some (_, Skipped), Skipped | Some (_, Pending), Pending
  | Some (_, Undefined), Undefined => true
  | _, _ => false
  end.

Definition isHandleStep (e : Event) : bool :=
  match e with HandleStep _ _ => true | _ => false end.

(** The outcomes reported in an output, in order. *)
Definition outcomes (out : list Event) : list (gherkin.Step * Outcome) :=
  flat_map (fun e => match outcomeOf e with Some r => [r] | None => [] end) out.

(** Failed, Pending and Undefined are the outcomes that stop a scenario. *)
Definition stops (o : Outcome) : bool :=
  match o with Failed | Pending | Undefined => true | Passed | Skipped => false end.

(** ** The suite *)

Section Engine.

Variable World : Type.

(** [type StepHandler interface { HandleStep(args ...Arg) error }] *)
Definition StepHandler : Type := list Arg -> World -> HandlerResult * World.

Record stepMatchHandler : Type :=
  mkStepMatchHandler { handler : StepHandler; expr : Regexp }.

Record suite : Type :=
  mkSuite { steps : list stepMatchHandler; features : list gherkin.Feature }.

Definition New : suite := {| steps := []; features := [] |}.

(** [func (s *suite) Step(expr *regexp.Regexp, h StepHandler)] *)
Definition Step (s : suite) (e : Regexp) (h : StepHandler) : suite :=
  {| steps := steps s ++ [ {| handler := h; expr := e |} ];
     features := features s |}.

(** Result of a computation of the runner: it returns [a], or a panic
    reaches the top; either way with the world and the output so far. *)
Inductive Res (A : Type) : Type :=
| Done (a : A) (w : World) (out : list Event)
| Crashed (p : PanicValue) (w : World) (out : list Event).

Arguments Done {A} a w out.
Arguments Crashed {A} p w out.

Definition M (A : Type) : Type := World -> Res A.

Definition ret {A} (a : A) : M A := fun w => Done a w [].

Definition emit (e : Event) : M unit := fun w => Done tt w [e].

Definition after {A} (pre : list Event) (r : Res A) : Res A :=
  match r with
  | Done a w out => Done a w (pre ++ out)
  | Crashed p w out => Crashed p w (pre ++ out)
  end.

Definition bind {A B} (m : M A) (k : A -> M B) : M B :=
  fun w =>
    match m w with
    | Done a w' out => after out (k a w')
    | Crashed p w' out => Crashed p w' out
    end.

Notation "x <- m ;; k" := (bind m (fun x => k))
  (at level 61, m at next level, right associativity).
Notation "m ;;; k" := (bind m (fun _ => k))
  (at level 61, right associativity).

Definition outputOf {A} (r : Res A) : list Event :=
  match r with Done _ _ out => out | Crashed _ _ out => out end.

Definition worldOf {A} (r : Res A) : World :=
  match r with Done _ w _ => w | Crashed _ w _ => w end.

Definition crashed {A} (r : Res A) : bool :=
  match r with Done _ _ _ => false | Crashed _ _ _ => true end.

(** [len(m) > 0] for [m := h.expr.FindStringSubmatch(text)] *)
Definition matches (h : stepMatchHandler) (text : string) : bool :=
  (0 <? length (FindStringSubmatch (expr h) text))%nat.

(** The [for _, h := range s.steps] loop of [runStep], from index [i]: the
    first handler whose expression matches, with the submatches [m[1:]] as
    its arguments. *)
Fixpoint findMatchFrom (i : nat) (hs : list stepMatchHandler) (text : string)
  : option (nat * stepMatchHandler * list Arg) :=
  match hs with
  | [] => None
  | h :: rest =>
      let m := FindStringSubmatch (expr h) text in
      if (0 <? length m)%nat then Some (i, h, tl m)
      else findMatchFrom (S i) rest text
  end.

Definition findMatch (hs : list stepMatchHandler) (text : string) :=
  findMatchFrom 0 hs text.

(** The panic raised by [e.(error)] when [e] holds a string. *)
Definition typeAssertionPanic : PanicValue :=
  PanicError (RuntimeError
    "interface conversion: string is not error: missing method Error").

(** [func (s *suite) runStep(step *gherkin.Step) (err error)].  The deferred
    function runs when the handler panics: it asserts that the recovered
    value is an [error] and reports the step as failed; when the assertion
    itself panics, nothing recovers and the panic leaves [runStep]. *)
Definition runStep (s : suite) (step : gherkin.Step) : M (option goerror) :=
  fun w =>
    match findMatch (steps s) (gherkin.Text step) with
    | None => Done (Some errPending) w [FmtPending step]
    | Some (i, h, args) =>
        match handler h args w with
        | (Return (Some err), w') =>
            Done (Some err) w' [HandleStep i args; FmtFailed step i err]
        | (Return None, w') =>
            Done None w' [HandleStep i args; FmtPassed step i]
        | (Panic (PanicError err), w') =>
            Done (Some err) w' [HandleStep i args; FmtFailed step i err]
        | (Panic (PanicString _), w') =>
            Crashed typeAssertionPanic w' [HandleStep i args]
        end
    end.

(** The loop of [runSteps], entered with the current value of [failed]. *)
Fixpoint runStepsFrom (s : suite) (failed : bool) (l : list gherkin.Step)
  : M bool :=
  match l with
  | [] => ret failed
  | step :: rest =>
      if failed then emit (FmtSkipped step) ;;; runStepsFrom s failed rest
      else
        err <- runStep s step ;;
        runStepsFrom s (match err with Some _ => true | None => failed end) rest
  end.

(** [func (s *suite) runSteps(steps []*gherkin.Step) bool] *)
Definition runSteps (s : suite) (l : list gherkin.Step) : M bool :=
  runStepsFrom s false l.

(** [func (s *suite) skipSteps(steps []*gherkin.Step)] *)
Fixpoint skipSteps (s : suite) (l : list gherkin.Step) : M unit :=
  match l with
  | [] => ret tt
  | step :: rest => emit (FmtSkipped step) ;;; skipSteps s rest
  end.

(** The background part of one iteration of the loop of [runFeature]:
    [if f.Background != nil && !failed { ... }]; it returns [failed]. *)
Definition runBackground (s : suite) (f : gherkin.Feature) (failed : bool)
  : M bool :=
  match gherkin.Feature_Background f with
  | Some bg =>
      if negb failed then
        emit (FmtNode (NBackground bg)) ;;;
        runSteps s (gherkin.Background_Steps bg)
      else ret failed
  | None => ret failed
  end.

(** One iteration of the loop of [runFeature]; it returns [failed]. *)
Definition runScenario (s : suite) (f : gherkin.Feature) (failed : bool)
  (scenario : gherkin.Scenario) : M bool :=
  failed' <- runBackground s f failed ;;
  emit (FmtNode (NScenario scenario)) ;;;
  (if failed' then skipSteps s (gherkin.Scenario_Steps scenario)
   else runSteps s (gherkin.Scenario_Steps scenario) ;;; ret tt) ;;;
  ret failed'.

Fixpoint runScenarios (s : suite) (f : gherkin.Feature) (failed : bool)
  (l : list gherkin.Scenario) : M bool :=
  match l with
  | [] => ret failed
  | scenario :: rest =>
      failed' <- runScenario s f failed scenario ;;
      runScenarios s f failed' rest
  end.

(** [func (s *suite) runFeature(f *gherkin.Feature)] *)
Definition runFeature (s : suite) (f : gherkin.Feature) : M unit :=
  emit (FmtNode (NFeature f)) ;;;
  runScenarios s f false (gherkin.Scenarios f) ;;;
  ret tt.

Fixpoint runFeatures (s : suite) (l : list gherkin.Feature) : M unit :=
  match l with
  | [] => ret tt
  | f :: rest => runFeature s f ;;; runFeatures s rest
  end.

(** [func (s *suite) Run()], after the configuration has produced the
    formatter and the features: [for _, f := range s.features]. *)
Definition Run (s : suite) : M unit := runFeatures s (features s).

End Engine.

Arguments Done {World A} a w out.
Arguments Crashed {World A} p w out.
Arguments mkStepMatchHandler {World} handler expr.
Arguments handler {World} s.
Arguments expr {World} s.
Arguments mkSuite {World} steps features.
Arguments steps {World} s.
Arguments features {World} s.
Arguments New {World}.
Arguments Step {World} s e h.
Arguments ret {World A} a.
Arguments emit {World} e.
Arguments after {World A} pre r.
Arguments bind {World A B} m k.
Arguments outputOf {World A} r.
Arguments worldOf {World A} r.
Arguments crashed {World A} r.
Arguments matches {World} h text.
Arguments findMatchFrom {World} i hs text.
Arguments findMatch {World} hs text.
Arguments runStep {World} s step.
Arguments runStepsFrom {World} s failed l.
Arguments runSteps {World} s l.
Arguments skipSteps {World} s l.
Arguments runBackground {World} s f failed.
Arguments runScenario {World} s f failed scenario.
Arguments runScenarios {World} s f failed l.
Arguments runFeature {World} s f.
Arguments runFeatures {World} s l.
Arguments Run {World} s.

(** ** Aggregate counts and the strict-mode decision *)

Definition countOutcome (o : Outcome) (out : list Event) : nat :=
  length (filter (isOutcome o) out).

Record Counts : Type :=
  mkCounts { passed : nat; failed : nat; pending : nat;
             undefined : nat; skipped : nat }.

(** The counts of each outcome kind reported in an output. *)
Definition tally (out : list Event) : Counts :=
  {| passed := countOutcome Passed out;
     failed := countOutcome Failed out;
     pending := countOutcome Pending out;
     undefined := countOutcome Undefined out;
     skipped := countOutcome Skipped out |}.

(** Modelled from the spec: the strict-mode decision is made by the runner
    ([runner.run], exercised by the tests of [run_test.go]), which is not
    part of the sources.  "Given final aggregate counts, success is
    failed == 0 && (strict ? pending == 0 && undefined == 0 : true)". *)
Definition success (c : Counts) (strict : bool) : bool :=
  (failed c =? 0)%nat &&
  (if strict then (pending c =? 0)%nat && (undefined c =? 0)%nat else true).

(** An event that reports an outcome which stops a scenario. *)
Definition stopsEvent (e : Event) : bool :=
  match outcomeOf e with Some (_, o) => stops o | None => false end.

(** The output of skipping a scenario: its node, then every step skipped. *)
Definition skippedScenario (sc : gherkin.Scenario) : list Event :=
  FmtNode (NScenario sc) :: map FmtSkipped (gherkin.Scenario_Steps sc).

(** The events of an output that report an outcome for the step [st]. *)
Definition reports (st : gherkin.Step) (e : Event) : bool :=
  match outcomeOf e with
  | Some (st', _) => String.eqb (gherkin.Text st') (gherkin.Text st)
  | None => false
  end.

(** The scenarios whose node an output announces, in order. *)
Definition scenarioNodes (out : list Event) : list gherkin.Scenario :=
  flat_map (fun e => match e with FmtNode (NScenario sc) => [sc] | _ => [] end)
           out.

Definition isBackgroundNode (e : Event) : bool :=
  match e with FmtNode (NBackground _) => true | _ => false end.

(** How many times an output announces a background. *)
Definition backgroundRuns (out : list Event) : nat :=
  length (filter isBackgroundNode out).

(** How many handler invocations an output records. *)
Definition invocations (out : list Event) : nat :=
  length (filter isHandleStep out).

(** A result that returned, in whose output every handler invocation is
    matched by the report of a Passed or Failed outcome. *)
Definition allReported {World A : Type} (r : Res World A) : Prop :=
  crashed r = false /\
  invocations (outputOf r) =
    countOutcome Passed (outputOf r) + countOutcome Failed (outputOf r).

(** Two results that agree on everything but the world they leave. *)
Definition sameRun {World A : Type} (r1 r2 : Res World A) : Prop :=
  match r1, r2 with
  | Done a _ o, Done a' _ o' => a = a' /\ o = o'
  | Crashed p _ o, Crashed p' _ o' => p = p' /\ o = o'
  | _, _ => False
  end.

(** ** The concurrency coordinator *)

Section Coordinator.

Variable World : Type.

(** The worker, among [C], that the feature at position [i] of the feature
    list is given to; [sched] is any scheduling of positions to workers. *)
Definition workerOf (C : nat) (sched : nat -> nat) (i : nat) : nat :=
  sched i mod C.

(** The features of worker [k], with their positions, in the order of the
    feature list; [i] is the position of the head of [fs]. *)
Fixpoint assigned (C : nat) (sched : nat -> nat) (k i : nat)
  (fs : list gherkin.Feature) : list (nat * gherkin.Feature) :=
  match fs with
  | [] => []
  | f :: rest =>
      if (workerOf C sched i =? k)%nat
      then (i, f) :: assigned C sched k (S i) rest
      else assigned C sched k (S i) rest
  end.

(** One worker: an engine of its own, which runs its features one after
    the other from the world it was started in and writes the events of
    each to a buffer of its own, labelled by the position of the feature.
    [None]: a panic left the engine. *)
Fixpoint runWorker (s : suite World) (jobs : list (nat * gherkin.Feature))
  (w : World) : option (list (nat * list Event)) :=
  match jobs with
  | [] => Some []
  | (i, f) :: rest =>
      match runFeature s f w with
      | Done _ w' out =>
          match runWorker s rest w' with
          | Some bufs => Some ((i, out) :: bufs)
          | None => None
          end
      | Crashed _ _ _ => None
      end
  end.

(** All workers; they share the registry of [s] and nothing else, each
    starts from the initial world [w0]. *)
Fixpoint runWorkers (s : suite World)
  (workers : list (list (nat * gherkin.Feature))) (w0 : World)
  : option (list (nat * list Event)) :=
  match workers with
  | [] => Some []
  | jobs :: rest =>
      match runWorker s jobs w0, runWorkers s rest w0 with
      | Some bufs, Some more => Some (bufs ++ more)%list
      | _, _ => None
      end
  end.

(** The events buffered for the feature at position [i]. *)
Definition bufferOf (i : nat) (bufs : list (nat * list Event)) : list Event :=
  flat_map (fun b => if (fst b =? i)%nat then snd b else []) bufs.

(** The merge: the buffers are flushed in the order of the feature list;
    [i] is the position of the head of [fs]. *)
Fixpoint flush (i : nat) (fs : list gherkin.Feature)
  (bufs : list (nat * list Event)) : list Event :=
  match fs with
  | [] => []
  | _ :: rest => (bufferOf i bufs ++ flush (S i) rest bufs)%list
  end.

(** The sequential run: the feature loop of [Run] on one engine. *)
Definition runSequential (s : suite World) (fs : list gherkin.Feature)
  (w0 : World) : option (list Event) :=
  match runFeatures s fs w0 with
  | Done _ _ out => Some out
  | Crashed _ _ _ => None
  end.

(** Modelled from the spec: the Concurrency Coordinator, which is not part
    of the sources ([suite.go] runs the features on one engine).  "If
    C == 1 features run sequentially on the Execution Engine; if C > 1,
    Features are distributed across C parallel workers (each an independent
    Execution Engine instance sharing the same read-only Step Registry),
    and each worker writes its events to a private, ordered buffer scoped
    to the Features it was assigned.  After all workers complete, buffers
    are flushed into the single configured Formatter in a fixed
    deterministic order (by original Feature ordering)"; "workers never
    share mutable state with each other".  The result is the merged
    output, or [None] when a panic ended the run. *)
Definition runWith (s : suite World) (C : nat) (sched : nat -> nat)
  (fs : list gherkin.Feature) (w0 : World) : option (list Event) :=
  if (C <=? 1)%nat then runSequential s fs w0
  else
    match runWorkers s (map (fun k => assigned C sched k 0 fs) (seq 0 C)) w0 with
    | Some bufs => Some (flush 0 fs bufs)
    | None => None
    end.

End Coordinator.

Arguments runWorker {World} s jobs w.
Arguments runWorkers {World} s workers w0.
Arguments runSequential {World} s fs w0.
Arguments runWith {World} s C sched fs w0.

(** The aggregate totals of a run that returned. *)
Definition totals (r : option (list Event)) : option Counts :=
  match r with Some out => Some (tally out) | None => None end.

(** ** The progress output read back by the tests *)

Module RunTest.

(** The newline, and the separator of three newlines that
    [parseProgressOutput] cuts the output at. *)
Definition nl : string := String (ascii_of_nat 10) EmptyString.

Definition blank : string := (nl ++ nl ++ nl)%string.

(** [strings.Split(s, sep)] for a non-empty [sep], scanning [s] from the
    left: [cur] is the piece read so far and [skip] the number of bytes of
    a separator just found that are still to pass. *)
Fixpoint splitFrom (sep : string) (skip : nat) (cur s : string) : list string :=
  match s with
  | EmptyString => [cur]
  | String c rest =>
      match skip with
      | S k => splitFrom sep k cur rest
      | O =>
          if prefix sep s
          then cur :: splitFrom sep (String.length sep - 1) EmptyString rest
          else splitFrom sep 0 (cur ++ String c EmptyString)%string rest
      end
  end.

(** [strings.Split].  With an empty separator Go cuts [s] after each UTF-8
    sequence; here [s] is cut after each byte, which gives the same pieces
    for ASCII text and, for any text, the same pieces among the one-byte
    strings [parseProgressOutput] compares them with. *)
Definition Split (s sep : string) : list string :=
  match sep with
  | EmptyString => map (fun c => String c EmptyString) (list_ascii_of_string s)
  | _ => splitFrom sep 0 EmptyString s
  end.

Record progressOutput : Type :=
  mkProgressOutput { passed : nat; skipped : nat; failed : nat;
                     undefined : nat; pending : nat;
                     noOfStepsPerRow : list string;
                     bottomRows : list string }.

(** The [switch stepResult] of the inner loop. *)
Definition countResult (p : progressOutput) (stepResult : string)
  : progressOutput :=
  let '(mkProgressOutput pa sk fa un pe rows bottom) := p in
  if String.eqb stepResult "." then mkProgressOutput (S pa) sk fa un pe rows bottom
  else if String.eqb stepResult "-" then mkProgressOutput pa (S sk) fa un pe rows bottom
  else if String.eqb stepResult "F" then mkProgressOutput pa sk (S fa) un pe rows bottom
  else if String.eqb stepResult "U" then mkProgressOutput pa sk fa (S un) pe rows bottom
  else if String.eqb stepResult "P" then mkProgressOutput pa sk fa un (S pe) rows bottom
  else p.

(** The panic of [a[1]] on a slice of length 1. *)
Definition indexOutOfRange : PanicValue :=
  PanicError
    (RuntimeError "runtime error: index out of range [1] with length 1").

(** The loop [for idx, row := range topRows]; the entries of
    [noOfStepsPerRow] are written in order of [idx]. *)
Fixpoint parseRows (topRows : list string) (p : progressOutput)
  : progressOutput + PanicValue :=
  match topRows with
  | [] => inl p
  | row :: rest =>
      match Split row " " with
      | r0 :: r1 :: _ =>
          let stepResults := Split r0 EmptyString in
          let '(mkProgressOutput pa sk fa un pe rows bottom) := p in
          parseRows rest
            (fold_left countResult stepResults
               (mkProgressOutput pa sk fa un pe (rows ++ [r1]) bottom))
      | _ => inr indexOutOfRange
      end
  end.

(** [func parseProgressOutput(output string) (parsed progressOutput)] *)
Definition parseProgressOutput (output : string) : progressOutput + PanicValue :=
  match Split output blank with
  | m0 :: m1 :: _ =>
      parseRows (Split m0 nl) (mkProgressOutput 0 0 0 0 0 [] (Split m1 nl))
  | _ => inr indexOutOfRange
  end.

(** Whether the byte [c] occurs in [s], and how often. *)
Fixpoint hasChar (c : ascii) (s : string) : bool :=
  match s with
  | EmptyString => false
  | String x rest => Ascii.eqb x c || hasChar c rest
  end.

Fixpoint countChar (c : ascii) (s : string) : nat :=
  match s with
  | EmptyString => 0
  | String x rest => (if Ascii.eqb x c then 1 else 0) + countChar c rest
  end.

(** A row of the progress output: the result symbols, one space, the text
    up to the next space, and what follows, which is empty or starts with
    a space. *)
Record Row : Type :=
  mkRow { symbols : string; second : string; tail : string }.

Definition rowText (r : Row) : string :=
  (symbols r ++ " " ++ second r ++ tail r)%string.

Definition rowOk (r : Row) : bool :=
  negb (hasChar " " (symbols r)) && negb (hasChar (ascii_of_nat 10) (symbols r)) &&
  negb (hasChar " " (second r)) && negb (hasChar (ascii_of_nat 10) (second r)) &&
  negb (hasChar (ascii_of_nat 10) (tail r)) &&
  match tail r with
  | EmptyString => true
  | String c _ => Ascii.eqb c " "
  end.

(** A line of the top part: not empty and without a newline. *)
Definition lineOk (x : string) : bool :=
  negb (hasChar (ascii_of_nat 10) x) && negb (String.eqb x EmptyString).

Definition sumOver (f : Row -> nat) (rows : list Row) : nat :=
  fold_right (fun r n => f r + n) 0 rows.

End RunTest.

(** ** A small suite to run the engine on

    The world of these handlers counts the handler invocations. *)

Module Sample.

(** The expression [^p$] for a literal [p]. *)
Definition reExact (p : string) : Regexp :=
  {| FindStringSubmatch := fun t => if String.eqb t p then [t] else [] |}.

(** The anchored expression made of the literal [pre], one capture group
    that takes any text, and the literal [post]. *)
Definition reGroup (pre post : string) : Regexp :=
  {| FindStringSubmatch := fun t =>
       let mid :=
         substring (String.length pre)
                   (String.length t - String.length pre - String.length post) t in
       if String.eqb (pre ++ mid ++ post) t then [t; mid] else [] |}.

Definition okStep : StepHandler nat := fun _ w => (Return None, S w).

Definition pendingStep : StepHandler nat :=
  fun _ w => (Return (Some errPending), S w).

Definition errorStep : StepHandler nat :=
  fun _ w => (Return (Some (Errorf "error")), S w).

(** A handler that panics with an [error] value. *)
Definition faultyStep : StepHandler nat :=
  fun _ w => (Panic (PanicError (RuntimeError "index out of range")), S w).

(** [func(args ...Arg) error { _ = args[0].Int(); return nil }] *)
Definition intStep : StepHandler nat :=
  fun args w =>
    match args with
    | a :: _ =>
        match Arg_Int a with
        | inl _ => (Return None, S w)
        | inr p => (Panic p, S w)
        end
    | [] => (Panic (PanicError (RuntimeError "index out of range")), S w)
    end.

Definition one : gherkin.Step := gherkin.mkStep "one".
Definition two : gherkin.Step := gherkin.mkStep "two".
Definition three : gherkin.Step := gherkin.mkStep "three".
Definition cukes (n : string) : gherkin.Step :=
  gherkin.mkStep ("I have " ++ n ++ " cukes").

(** Steps "one" and "two" in one scenario, as in [basicGherkinFeature]. *)
Definition basicScenario : gherkin.Scenario :=
  gherkin.mkScenario "basic" [one; two].

Definition basicFeature : gherkin.Feature :=
  gherkin.mkFeature "basic" None [basicScenario].

(** Only "one" is registered. *)
Definition suiteOne : suite nat := Step New (reExact "one") okStep.

(** "one" passes, "two" returns [errPending]. *)
Definition suitePending : suite nat :=
  Step (Step New (reExact "one") okStep) (reExact "two") pendingStep.

(** "one" passes, "two" returns an error. *)
Definition suiteError : suite nat :=
  Step (Step New (reExact "one") okStep) (reExact "two") errorStep.

(** Two definitions that both match "I have 5 cukes". *)
Definition suiteCukes : suite nat :=
  Step (Step (Step New (reExact "one") okStep)
             (reGroup "I have " " cukes") intStep)
       (reGroup "I " "") okStep.

(** All of "one", "two" and "three" pass. *)
Definition suitePassing : suite nat :=
  Step (Step (Step New (reExact "one") okStep) (reExact "two") okStep)
       (reExact "three") okStep.

Definition background : gherkin.Background := gherkin.mkBackground [one].
Definition scenario1 : gherkin.Scenario := gherkin.mkScenario "first" [two].
Definition scenario2 : gherkin.Scenario := gherkin.mkScenario "second" [three].

(** A background and two scenarios. *)
Definition withBackground : gherkin.Feature :=
  gherkin.mkFeature "with background" (Some background) [scenario1; scenario2].

(** A feature whose background has a step nothing matches. *)
Definition brokenBackground : gherkin.Feature :=
  gherkin.mkFeature "broken background"
    (Some (gherkin.mkBackground [gherkin.mkStep "zero"])) [scenario1; scenario2].

(** A scenario that stops at "zero", which nothing matches. *)
Definition failing : gherkin.Scenario :=
  gherkin.mkScenario "failing" [gherkin.mkStep "zero"; two].

(** A passing background, a failing first scenario and a second one. *)
Definition failingFirst : gherkin.Feature :=
  gherkin.mkFeature "failing first" (Some background) [failing; scenario2].

Definition cukesScenario : gherkin.Scenario :=
  gherkin.mkScenario "cukes" [cukes "abc"; one].

Definition cukesFeature : gherkin.Feature :=
  gherkin.mkFeature "cukes" None [cukesScenario].

(** The suite of [suiteCukes] loaded with two features. *)
Definition cukesRun : suite nat :=
  mkSuite (steps suiteCukes) [cukesFeature; basicFeature].

(** Handlers that pass, return an error and panic with an [error], loaded
    with three features. *)
Definition mixedRun : suite nat :=
  mkSuite [mkStepMatchHandler okStep (reExact "one");
           mkStepMatchHandler errorStep (reExact "two");
           mkStepMatchHandler faultyStep (reExact "three")]
          [withBackground; basicFeature; failingFirst].

(** A feature without background whose first scenario stops. *)
Definition plainFeature : gherkin.Feature :=
  gherkin.mkFeature "plain" None [failing; scenario1].

(** A handler with a memory: it passes the first time it is invoked on an
    engine and returns an error every time after. *)
Definition onceStep : StepHandler nat :=
  fun _ w =>
    (Return (match w with O => None | S _ => Some (Errorf "again") end), S w).

Definition suiteOnce : suite nat := Step New (reExact "one") onceStep.

Definition featureA : gherkin.Feature :=
  gherkin.mkFeature "A" None [gherkin.mkScenario "a" [one]].

Definition featureB : gherkin.Feature :=
  gherkin.mkFeature "B" None [gherkin.mkScenario "b" [one]].

End Sample.

(** * Properties *)

Import Sample.
Open Scope list_scope.

(** ** The output of the loops *)

Section Facts.

Variable World : Type.
Implicit Types (s : suite World) (w : World) (l : list gherkin.Step).

Lemma after_nil {A} (r : Res World A) : after [] r = r.
Proof. destruct r; reflexivity. Qed.

Lemma after_after {A} (a b : list Event) (r : Res World A) :
  after a (after b r) = after (a ++ b) r.
Proof. destruct r; simpl; rewrite app_assoc; reflexivity. Qed.

Lemma outputOf_after {A} (a : list Event) (r : Res World A) :
  outputOf (after a r) = a ++ outputOf r.
Proof. destruct r; reflexivity. Qed.

Lemma worldOf_after {A} (a : list Event) (r : Res World A) :
  worldOf (after a r) = worldOf r.
Proof. destruct r; reflexivity. Qed.

Lemma stopsEvent_skipped l : existsb stopsEvent (map FmtSkipped l) = false.
Proof. induction l; simpl; auto. Qed.

Lemma handleStep_skipped l : existsb isHandleStep (map FmtSkipped l) = false.
Proof. induction l; simpl; auto. Qed.

(** An event in the middle of a run of skipped steps does not stop. *)
Lemma skipped_split l : forall a e b,
  map FmtSkipped l = a ++ e :: b -> stopsEvent e = false.
Proof.
  induction l as [|st l IH]; intros a e b H.
  - destruct a; discriminate.
  - destruct a as [|x a]; simpl in H; inversion H; subst.
    + reflexivity.
    + eapply IH; eassumption.
Qed.

Lemma skipSteps_eq s l w : skipSteps s l w = Done tt w (map FmtSkipped l).
Proof.
  induction l as [|st l IH]; simpl.
  - reflexivity.
  - unfold bind, emit. rewrite IH. reflexivity.
Qed.

(** Entered with [failed] set, the loop of [runSteps] only skips. *)
Lemma runStepsFrom_failed s l w :
  runStepsFrom s true l w = Done true w (map FmtSkipped l).
Proof.
  induction l as [|st l IH]; simpl.
  - reflexivity.
  - unfold bind, emit. rewrite IH. reflexivity.
Qed.

(** The three ways [runStep] ends. *)
Lemma runStep_cases s step w :
  (exists i args w',
      runStep s step w = Done None w' [HandleStep i args; FmtPassed step i])
  \/ (exists e w' out,
         runStep s step w = Done (Some e) w' out /\
         (out = [FmtPending step] \/
          exists i args, out = [HandleStep i args; FmtFailed step i e]))
  \/ (exists i args w',
         runStep s step w = Crashed typeAssertionPanic w' [HandleStep i args]).
Proof.
  unfold runStep.
  destruct (findMatch (steps s) (gherkin.Text step)) as [[[i h] args]|].
  - destruct (handler h args w) as [[[e|]|[e|m]] w'].
    + right; left. exists e, w'. eexists. split; [reflexivity|]. right; eauto.
    + left. eauto.
    + right; left. exists e, w'. eexists. split; [reflexivity|]. right; eauto.
    + right; right. eauto.
  - right; left. exists errPending, w. eexists. split; [reflexivity|]. left; reflexivity.
Qed.

(** One iteration of the loop of [runSteps] with [failed] not set. *)
Lemma runSteps_cons s step l w :
  runSteps s (step :: l) w =
  match runStep s step w with
  | Done None w' out => after out (runSteps s l w')
  | Done (Some _) w' out => Done true w' (out ++ map FmtSkipped l)
  | Crashed p w' out => Crashed p w' out
  end.
Proof.
  unfold runSteps; simpl; unfold bind.
  destruct (runStep s step w) as [[e|] w' out|p w' out]; try reflexivity.
  rewrite runStepsFrom_failed. reflexivity.
Qed.

(** [runSteps] returns true exactly when it reported a stopping outcome. *)
Lemma runSteps_flag s l : forall w,
  match runSteps s l w with
  | Done b _ out => b = existsb stopsEvent out
  | Crashed _ _ out => existsb stopsEvent out = false
  end.
Proof.
  induction l as [|step l IH]; intro w.
  - reflexivity.
  - rewrite runSteps_cons.
    destruct (runStep_cases s step w)
      as [(i & args & w' & E)|[(e & w' & out & E & Hout)|(i & args & w' & E)]];
      rewrite E.
    + specialize (IH w'). destruct (runSteps s l w'); simpl; exact IH.
    + rewrite existsb_app, stopsEvent_skipped, orb_false_r.
      destruct Hout as [->|(i & args & ->)]; reflexivity.
    + reflexivity.
Qed.

(** Once [failed] is set the loop of [runFeature] only skips. *)
Lemma runScenarios_failed s f (scs : list gherkin.Scenario) w :
  runScenarios s f true scs w = Done true w (flat_map skippedScenario scs).
Proof.
  induction scs as [|sc scs IH]; simpl.
  - reflexivity.
  - unfold bind, runScenario, runBackground, bind, emit, ret.
    destruct (gherkin.Feature_Background f); simpl;
      rewrite skipSteps_eq; simpl; rewrite IH; simpl;
      rewrite app_nil_r; reflexivity.
Qed.

Lemma runScenarios_app s f (l1 l2 : list gherkin.Scenario) : forall b w,
  runScenarios s f b (l1 ++ l2) w =
  match runScenarios s f b l1 w with
  | Done b' w' out => after out (runScenarios s f b' l2 w')
  | Crashed p w' out => Crashed p w' out
  end.
Proof.
  induction l1 as [|sc l1 IH]; intros b w; simpl.
  - rewrite after_nil. reflexivity.
  - unfold bind. destruct (runScenario s f b sc w) as [b' w' out|p w' out].
    + rewrite IH. destruct (runScenarios s f b' l1 w'); simpl.
      * rewrite after_after. reflexivity.
      * reflexivity.
    + reflexivity.
Qed.

(** One iteration of the loop of [runFeature], by its two parts. *)
Lemma runScenario_eq s f b sc w :
  runScenario s f b sc w =
  match runBackground s f b w with
  | Done true w1 o1 => Done true w1 (o1 ++ skippedScenario sc)
  | Done false w1 o1 =>
      match runSteps s (gherkin.Scenario_Steps sc) w1 with
      | Done _ w2 o2 => Done false w2 (o1 ++ FmtNode (NScenario sc) :: o2)
      | Crashed p w2 o2 => Crashed p w2 (o1 ++ FmtNode (NScenario sc) :: o2)
      end
  | Crashed p w1 o1 => Crashed p w1 o1
  end.
Proof.
  unfold runScenario, bind, emit, ret.
  destruct (runBackground s f b w) as [[|] w1 o1|p w1 o1]; simpl.
  - rewrite skipSteps_eq. simpl. rewrite app_nil_r. reflexivity.
  - destruct (runSteps s (gherkin.Scenario_Steps sc) w1); simpl;
      rewrite ?app_nil_r; reflexivity.
  - reflexivity.
Qed.

Lemma runBackground_some s f bg w :
  gherkin.Feature_Background f = Some bg ->
  runBackground s f false w =
  after [FmtNode (NBackground bg)] (runSteps s (gherkin.Background_Steps bg) w).
Proof.
  intro H. unfold runBackground. rewrite H. reflexivity.
Qed.

Lemma findMatchFrom_spec (hs : list (stepMatchHandler World)) text : forall k,
  match findMatchFrom k hs text with
  | Some (i, h, args) =>
      k <= i /\ nth_error hs (i - k) = Some h /\ matches h text = true /\
      args = tl (FindStringSubmatch (expr h) text) /\
      forall j h', j < i - k -> nth_error hs j = Some h' -> matches h' text = false
  | None => forall j h', nth_error hs j = Some h' -> matches h' text = false
  end.
Proof.
  induction hs as [|h hs IH]; intro k; simpl.
  - intros [|j] h'; discriminate.
  - destruct (0 <? length (FindStringSubmatch (expr h) text))%nat eqn:E.
    + rewrite Nat.sub_diag. repeat split; auto. intros j h' Hj. lia.
    + specialize (IH (S k)).
      destruct (findMatchFrom (S k) hs text) as [[[i h0] args]|].
      * destruct IH as (Hk & Hn & Hm & Ha & Hlt).
        replace (i - k) with (S (i - S k)) by lia.
        repeat split; auto; try lia.
        intros [|j] h' Hj Hnth; simpl in Hnth.
        -- inversion Hnth; subst. exact E.
        -- apply (Hlt j); auto; lia.
      * intros [|j] h' Hnth; simpl in Hnth.
        -- inversion Hnth; subst. exact E.
        -- eapply IH; eassumption.
Qed.

Lemma findMatch_none (hs : list (stepMatchHandler World)) text :
  (forall h, In h hs -> matches h text = false) -> findMatch hs text = None.
Proof.
  intro H. unfold findMatch.
  pose proof (findMatchFrom_spec hs text 0) as S.
  destruct (findMatchFrom 0 hs text) as [[[i h] args]|]; [|reflexivity].
  destruct S as (_ & Hn & Hm & _).
  apply nth_error_In in Hn. rewrite (H _ Hn) in Hm. discriminate.
Qed.

End Facts.

(** ** Step resolution *)

(** C2.  In every registry, [Step] appends the definition at the index equal
    to the number of definitions registered before it; step resolution
    returns the definition of lowest index whose expression matches the
    text, with the capture groups [m[1:]] as arguments, in order, and no
    definition when none matches; [runStep] invokes exactly the handler of
    that definition on these arguments. *)
Theorem findMatch_first_registered :
  forall (World : Type) (s : suite World) (text : string),
    (forall e h, steps (Step s e h) = steps s ++ [mkStepMatchHandler h e]) /\
    match findMatch (steps s) text with
    | Some (i, h, args) =>
        nth_error (steps s) i = Some h /\
        matches h text = true /\
        args = tl (FindStringSubmatch (expr h) text) /\
        (forall j h', j < i -> nth_error (steps s) j = Some h' ->
                      matches h' text = false) /\
        (forall step w, gherkin.Text step = text ->
           exists evs,
             outputOf (runStep s step w) = HandleStep i args :: evs /\
             worldOf (runStep s step w) = snd (handler h args w))
    | None =>
        forall j h', nth_error (steps s) j = Some h' -> matches h' text = false
    end.
Proof.
  intros World s text. split; [reflexivity|].
  pose proof (findMatchFrom_spec World (steps s) text 0) as S.
  unfold findMatch.
  destruct (findMatchFrom 0 (steps s) text) as [[[i h] args]|] eqn:E; [|exact S].
  destruct S as (_ & Hn & Hm & Ha & Hlt). rewrite Nat.sub_0_r in Hn, Hlt.
  repeat split; auto.
  intros step w Ht. unfold runStep, findMatch. rewrite Ht, E.
  destruct (handler h args w) as [[[e|]|[e|m]] w']; simpl; eauto.
Qed.

Lemma findMatch_first_registered_witness :
  findMatch (steps suiteCukes) "I have 5 cukes"
    = Some (1, mkStepMatchHandler intStep (reGroup "I have " " cukes"), ["5"]) /\
  matches (mkStepMatchHandler okStep (reGroup "I " EmptyString))
          "I have 5 cukes" = true /\
  matches (mkStepMatchHandler okStep (reExact "one")) "I have 5 cukes" = false.
Proof.
  split; [reflexivity|]. split; [reflexivity|].
  pose proof (findMatch_first_registered nat suiteCukes "I have 5 cukes") as [_ H].
  change (findMatch (steps suiteCukes) "I have 5 cukes")
    with (Some (1, mkStepMatchHandler intStep (reGroup "I have " " cukes"), ["5"]))
    in H.
  destruct H as (_ & _ & _ & H & _).
  apply (H 0); [lia | reflexivity].
Defined.

(** ** Outcomes of a step *)

(** C3, as the code has it.  A step whose text no registered expression
    matches is reported through [s.fmt.Pending]: its outcome is Pending,
    [runStep] returns [errPending] without invoking a handler, and
    [runSteps] skips the steps after it and returns true. *)
Theorem unmatched_step_is_pending :
  forall (World : Type) (s : suite World) (step : gherkin.Step)
         (rest : list gherkin.Step) (w : World),
    (forall h, In h (steps s) -> matches h (gherkin.Text step) = false) ->
    runStep s step w = Done (Some errPending) w [FmtPending step] /\
    outcomes (outputOf (runStep s step w)) = [(step, Pending)] /\
    runSteps s (step :: rest) w =
      Done true w (FmtPending step :: map FmtSkipped rest).
Proof.
  intros World s step rest w H.
  assert (E : runStep s step w = Done (Some errPending) w [FmtPending step]).
  { unfold runStep. rewrite (findMatch_none World _ _ H). reflexivity. }
  split; [exact E|]. split.
  - rewrite E. reflexivity.
  - rewrite runSteps_cons, E. reflexivity.
Qed.

Lemma unmatched_step_is_pending_witness :
  runStep suiteOne two 0 = Done (Some errPending) 0 [FmtPending two] /\
  outcomes (outputOf (runStep suiteOne two 0)) = [(two, Pending)] /\
  runSteps suiteOne [two; one] 0 = Done true 0 [FmtPending two; FmtSkipped one].
Proof.
  apply (unmatched_step_is_pending nat suiteOne two [one] 0).
  intros h [<-|[]]. reflexivity.
Defined.

(** C3 as stated fails: with only "one" registered, nothing matches the step
    "two", and the outcome reported for it is Pending, not Undefined. *)
Lemma unmatched_step_not_undefined :
  findMatch (steps suiteOne) (gherkin.Text two) = None /\
  outcomes (outputOf (runStep suiteOne two 0)) = [(two, Pending)] /\
  outcomes (outputOf (runStep suiteOne two 0)) <> [(two, Undefined)].
Proof.
  split; [reflexivity|]. split; [reflexivity|]. discriminate.
Qed.

(** C4, as the code has it.  For a step matched to a handler, the reported
    outcome is Failed, carrying the error, when the handler returns any
    non-nil error ([errPending] included), and Passed when it returns nil. *)
Theorem handler_result_outcome :
  forall (World : Type) (s : suite World) (step : gherkin.Step) (w w' : World)
         (i : nat) (h : stepMatchHandler World) (args : list Arg)
         (err : option goerror),
    findMatch (steps s) (gherkin.Text step) = Some (i, h, args) ->
    handler h args w = (Return err, w') ->
    runStep s step w =
      Done err w'
        [HandleStep i args;
         match err with
         | Some e => FmtFailed step i e
         | None => FmtPassed step i
         end] /\
    outcomes (outputOf (runStep s step w)) =
      [(step, match err with Some _ => Failed | None => Passed end)].
Proof.
  intros World s step w w' i h args err Hm Hh.
  unfold runStep. rewrite Hm, Hh. destruct err; split; reflexivity.
Qed.

Lemma handler_result_outcome_witness :
  runStep suitePending two 0 =
    Done (Some errPending) 1 [HandleStep 1 []; FmtFailed two 1 errPending] /\
  outcomes (outputOf (runStep suitePending two 0)) = [(two, Failed)].
Proof.
  apply (handler_result_outcome nat suitePending two 0 1 1
           (mkStepMatchHandler pendingStep (reExact "two")) [] (Some errPending));
    reflexivity.
Defined.

(** C4 as stated fails: the handler registered for "two" returns the pending
    sentinel [errPending], and the step is reported as Failed, not Pending. *)
Lemma pending_sentinel_reported_failed :
  findMatch (steps suitePending) (gherkin.Text two)
    = Some (1, mkStepMatchHandler pendingStep (reExact "two"), []) /\
  pendingStep [] 0 = (Return (Some errPending), 1) /\
  outcomes (outputOf (runStep suitePending two 0)) = [(two, Failed)] /\
  outcomes (outputOf (runStep suitePending two 0)) <> [(two, Pending)].
Proof.
  repeat split; try reflexivity. discriminate.
Qed.

(** ** Skipping after the first stopping outcome *)

(** C1.  Whenever the output of [runSteps] on the steps of a scenario holds
    an event reporting Failed, Pending or Undefined, that event is the
    outcome of one step of the list, every step before it passed, the
    output after it is exactly one [FmtSkipped] per subsequent step (so it
    holds no handler invocation), [runSteps] returns true, and the world
    is the one the stopping step left. *)
Theorem runSteps_skips_after_stop :
  forall (World : Type) (s : suite World) (l : list gherkin.Step) (w : World)
         (out1 out2 : list Event) (e : Event),
    outputOf (runSteps s l w) = out1 ++ e :: out2 ->
    stopsEvent e = true ->
    exists pre step post o w',
      l = pre ++ step :: post /\
      outcomeOf e = Some (step, o) /\
      outcomes out1 = map (fun st => (st, Passed)) pre /\
      out2 = map FmtSkipped post /\
      existsb isHandleStep out2 = false /\
      runSteps s l w = Done true w' (out1 ++ e :: out2) /\
      runSteps s (pre ++ [step]) w = Done true w' (out1 ++ [e]).
Proof.
  intros World s l. induction l as [|step l IH]; intros w out1 out2 e Hout He.
  - destruct out1; discriminate.
  - rewrite runSteps_cons in Hout.
    destruct (runStep_cases World s step w)
      as [(i & args & w' & E)|[(err & w' & out & E & Ho)|(i & args & w' & E)]].
    + rewrite E in Hout. rewrite outputOf_after in Hout. simpl in Hout.
      destruct out1 as [|a [|b out1]]; simpl in Hout; inversion Hout; subst;
        try discriminate.
      destruct (IH w' out1 out2 e H2 He)
        as (pre & st & post & o & w2 & Hl & Hoc & Hpre & Hpost & Hh & R1 & R2).
      exists (step :: pre), st, post, o, w2. subst l.
      repeat split; auto.
      * simpl. rewrite Hpre. reflexivity.
      * rewrite runSteps_cons, E, R1. reflexivity.
      * simpl app at 1. rewrite runSteps_cons, E, R2. reflexivity.
    + rewrite E in Hout. simpl in Hout.
      exists [], step, l.
      destruct Ho as [->|(i & args & ->)].
      * destruct out1 as [|a out1]; simpl in Hout; inversion Hout; subst.
        -- exists Pending, w'. repeat split; auto.
           ++ apply handleStep_skipped.
           ++ rewrite runSteps_cons, E. reflexivity.
           ++ simpl. rewrite runSteps_cons, E. reflexivity.
        -- rewrite (skipped_split _ _ _ _ H1) in He. discriminate.
      * destruct out1 as [|a [|b out1]]; simpl in Hout; inversion Hout; subst;
          try discriminate.
        -- exists Failed, w'. repeat split; auto.
           ++ apply handleStep_skipped.
           ++ rewrite runSteps_cons, E. reflexivity.
           ++ simpl. rewrite runSteps_cons, E. reflexivity.
        -- rewrite (skipped_split _ _ _ _ H2) in He. discriminate.
    + rewrite E in Hout. simpl in Hout.
      destruct out1 as [|a [|b out1]]; simpl in Hout; inversion Hout; subst;
        discriminate.
Qed.

Lemma runSteps_skips_after_stop_witness :
  exists pre step post o w',
    [one; two; three; one] = pre ++ step :: post /\
    outcomeOf (FmtFailed two 1 (Errorf "error")) = Some (step, o) /\
    outcomes [HandleStep 0 []; FmtPassed one 0; HandleStep 1 []]
      = map (fun st => (st, Passed)) pre /\
    [FmtSkipped three; FmtSkipped one] = map FmtSkipped post /\
    existsb isHandleStep [FmtSkipped three; FmtSkipped one] = false /\
    runSteps suiteError [one; two; three; one] 0 =
      Done true w'
        ([HandleStep 0 []; FmtPassed one 0; HandleStep 1 []] ++
         FmtFailed two 1 (Errorf "error") ::
         [FmtSkipped three; FmtSkipped one]) /\
    runSteps suiteError (pre ++ [step]) 0 =
      Done true w'
        ([HandleStep 0 []; FmtPassed one 0; HandleStep 1 []] ++
         [FmtFailed two 1 (Errorf "error")]).
Proof.
  apply (runSteps_skips_after_stop nat suiteError [one; two; three; one] 0);
    reflexivity.
Defined.

(** ** The failure flag of a feature *)

(** C6.  In a feature with a background, let the scenarios [pre] run with
    the flag unset, and let the background, run before the next scenario
    [sc], report a Failed, Pending or Undefined outcome.  Then the loop of
    [runFeature] ends with the flag set, and after the output of that
    background run it emits, for [sc] and for every later scenario, the
    scenario node followed by one [FmtSkipped] per step: the background is
    not run again and no handler is invoked, the world staying the one the
    background left. *)
Theorem background_failure_persists :
  forall (World : Type) (s : suite World) (f : gherkin.Feature)
         (bg : gherkin.Background) (pre rest : list gherkin.Scenario)
         (sc : gherkin.Scenario) (w0 w : World) (opre : list Event),
    gherkin.Feature_Background f = Some bg ->
    runScenarios s f false pre w0 = Done false w opre ->
    existsb stopsEvent
      (outputOf (runSteps s (gherkin.Background_Steps bg) w)) = true ->
    runScenarios s f false (pre ++ sc :: rest) w0 =
      Done true (worldOf (runSteps s (gherkin.Background_Steps bg) w))
        (opre ++
         FmtNode (NBackground bg) ::
         outputOf (runSteps s (gherkin.Background_Steps bg) w) ++
         flat_map skippedScenario (sc :: rest)) /\
    existsb isHandleStep (flat_map skippedScenario (sc :: rest)) = false.
Proof.
  intros World s f bg pre rest sc w0 w opre Hbg Hpre Hstop. split.
  - rewrite runScenarios_app, Hpre.
    change (runScenarios s f false (sc :: rest) w)
      with (bind (runScenario s f false sc)
                 (fun b => runScenarios s f b rest) w).
    unfold bind. rewrite runScenario_eq, (runBackground_some World s f bg w Hbg).
    pose proof (runSteps_flag World s (gherkin.Background_Steps bg) w) as Hf.
    destruct (runSteps s (gherkin.Background_Steps bg) w) as [b w1 o1|p w1 o1];
      simpl in Hstop, Hf |- *.
    + rewrite Hstop in Hf. subst b. rewrite runScenarios_failed. simpl.
      rewrite <- app_assoc. reflexivity.
    + congruence.
  - generalize (sc :: rest). intro scs. induction scs as [|x scs IH]; simpl.
    + reflexivity.
    + rewrite existsb_app, handleStep_skipped, IH. reflexivity.
Qed.

Lemma background_failure_persists_witness :
  runScenarios suitePassing brokenBackground false [scenario1; scenario2] 0 =
    Done true 0
      [FmtNode (NBackground (gherkin.mkBackground [gherkin.mkStep "zero"]));
       FmtPending (gherkin.mkStep "zero");
       FmtNode (NScenario scenario1); FmtSkipped two;
       FmtNode (NScenario scenario2); FmtSkipped three] /\
  existsb isHandleStep (flat_map skippedScenario [scenario1; scenario2]) = false.
Proof.
  apply (background_failure_persists nat suitePassing brokenBackground
           (gherkin.mkBackground [gherkin.mkStep "zero"])
           [] [scenario2] scenario1 0 0 []); reflexivity.
Defined.

(** C10.  When the background part of an iteration leaves the flag unset
    (no background, or a background that passed), the iteration leaves it
    unset whatever [runSteps] returns for the steps of the scenario, a
    failure included: the loop of [runFeature] goes on with the flag unset,
    so the later scenarios run the background again and their own steps.
    When the background part sets the flag, it stays set: the scenario and
    all later ones are skipped. *)
Theorem scenario_failure_is_discarded :
  forall (World : Type) (s : suite World) (f : gherkin.Feature)
         (sc : gherkin.Scenario) (rest : list gherkin.Scenario)
         (w w1 : World) (o1 : list Event),
    (runBackground s f false w = Done false w1 o1 ->
     forall (b : bool) (w2 : World) (o2 : list Event),
       runSteps s (gherkin.Scenario_Steps sc) w1 = Done b w2 o2 ->
       runScenario s f false sc w =
         Done false w2 (o1 ++ FmtNode (NScenario sc) :: o2) /\
       runScenarios s f false (sc :: rest) w =
         after (o1 ++ FmtNode (NScenario sc) :: o2)
               (runScenarios s f false rest w2)) /\
    (runBackground s f false w = Done true w1 o1 ->
     runScenarios s f false (sc :: rest) w =
       Done true w1 (o1 ++ flat_map skippedScenario (sc :: rest))).
Proof.
  intros World s f sc rest w w1 o1. split.
  - intros Hb b w2 o2 Hs.
    assert (E : runScenario s f false sc w =
                Done false w2 (o1 ++ FmtNode (NScenario sc) :: o2)).
    { rewrite runScenario_eq, Hb, Hs. reflexivity. }
    split; [exact E|].
    change (runScenarios s f false (sc :: rest) w)
      with (bind (runScenario s f false sc)
                 (fun b => runScenarios s f b rest) w).
    unfold bind. rewrite E. reflexivity.
  - intro Hb.
    change (runScenarios s f false (sc :: rest) w)
      with (bind (runScenario s f false sc)
                 (fun b => runScenarios s f b rest) w).
    unfold bind. rewrite runScenario_eq, Hb. cbv beta iota.
    rewrite runScenarios_failed. simpl. rewrite <- app_assoc. reflexivity.
Qed.

(** In [failingFirst] the background passes and the first scenario stops
    at "zero", which nothing matches; the second scenario still runs. *)
Lemma scenario_failure_is_discarded_witness :
  runScenario suitePassing failingFirst false failing 0 =
    Done false 1
      ([FmtNode (NBackground background); HandleStep 0 []; FmtPassed one 0] ++
       FmtNode (NScenario failing) ::
       [FmtPending (gherkin.mkStep "zero"); FmtSkipped two]) /\
  runScenarios suitePassing failingFirst false [failing; scenario2] 0 =
    after
      ([FmtNode (NBackground background); HandleStep 0 []; FmtPassed one 0] ++
       FmtNode (NScenario failing) ::
       [FmtPending (gherkin.mkStep "zero"); FmtSkipped two])
      (runScenarios suitePassing failingFirst false [scenario2] 1).
Proof.
  apply (proj1 (scenario_failure_is_discarded nat suitePassing failingFirst
                  failing [scenario2] 0 1
                  [FmtNode (NBackground background); HandleStep 0 [];
                   FmtPassed one 0])
               eq_refl true 1
               [FmtPending (gherkin.mkStep "zero"); FmtSkipped two] eq_refl).
Defined.

(** ** Panics of a handler *)

(** A handler that panics with an [error] value: the deferred function of
    [runStep] recovers it and reports the step as Failed with that error. *)
Lemma panic_error_is_failed :
  forall (World : Type) (s : suite World) (step : gherkin.Step) (w w' : World)
         (i : nat) (h : stepMatchHandler World) (args : list Arg) (e : goerror),
    findMatch (steps s) (gherkin.Text step) = Some (i, h, args) ->
    handler h args w = (Panic (PanicError e), w') ->
    runStep s step w = Done (Some e) w' [HandleStep i args; FmtFailed step i e].
Proof.
  intros World s step w w' i h args e Hm Hh.
  unfold runStep. rewrite Hm, Hh. reflexivity.
Qed.

(** A handler that panics with a string: the assertion [e.(error)] of the
    deferred function panics in turn, and [runStep] reports nothing. *)
Lemma panic_string_crashes :
  forall (World : Type) (s : suite World) (step : gherkin.Step) (w w' : World)
         (i : nat) (h : stepMatchHandler World) (args : list Arg) (m : string),
    findMatch (steps s) (gherkin.Text step) = Some (i, h, args) ->
    handler h args w = (Panic (PanicString m), w') ->
    runStep s step w = Crashed typeAssertionPanic w' [HandleStep i args].
Proof.
  intros World s step w w' i h args m Hm Hh.
  unfold runStep. rewrite Hm, Hh. reflexivity.
Qed.

(** C5, on the code.  The handler of "I have abc cukes" calls [Int] on its
    argument "abc"; [Int] panics with a string, the recovery in [runStep]
    panics on [e.(error)], no Failed outcome is reported for the step, and
    [Run] ends there: the rest of the scenario and the second feature never
    run. *)
Theorem arg_conversion_panic_ends_run :
  Arg_Int "abc" =
    inr (PanicString
           ("cannot convert " ++ dquote ++ "abc" ++ dquote ++
            " to int64: strconv.ParseInt: parsing " ++ dquote ++ "abc" ++
            dquote ++ ": invalid syntax")%string) /\
  runStep suiteCukes (cukes "abc") 0 =
    Crashed typeAssertionPanic 1 [HandleStep 1 ["abc"]] /\
  Run cukesRun 0 =
    Crashed typeAssertionPanic 1
      [FmtNode (NFeature cukesFeature); FmtNode (NScenario cukesScenario);
       HandleStep 1 ["abc"]] /\
  countOutcome Failed (outputOf (Run cukesRun 0)) = 0.
Proof.
  repeat split; reflexivity.
Qed.

(** ** Reports of the background *)

(** C7, on the code.  With a passing background "one" and two scenarios,
    [runFeature] runs and reports the background before each scenario: the
    outcome of its step "one" reaches the formatter twice. *)
Theorem background_reported_per_scenario :
  outputOf (runFeature suitePassing withBackground 0) =
    [FmtNode (NFeature withBackground);
     FmtNode (NBackground background); HandleStep 0 []; FmtPassed one 0;
     FmtNode (NScenario scenario1); HandleStep 1 []; FmtPassed two 1;
     FmtNode (NBackground background); HandleStep 0 []; FmtPassed one 0;
     FmtNode (NScenario scenario2); HandleStep 2 []; FmtPassed three 2] /\
  length (filter (reports one)
            (outputOf (runFeature suitePassing withBackground 0))) = 2.
Proof.
  split; reflexivity.
Qed.

(** ** Strict mode *)

(** C8.  The run succeeds exactly when no step failed and, in strict mode,
    none is pending or undefined; when no step failed, strict mode turns
    success into failure if and only if a step is pending or undefined. *)
Theorem strict_mode_decision :
  forall (c : Counts) (strict : bool),
    (success c strict = true <->
     failed c = 0 /\ (strict = true -> pending c = 0 /\ undefined c = 0)) /\
    (failed c = 0 ->
     (success c false = true /\ success c true = false <->
      pending c <> 0 \/ undefined c <> 0)).
Proof.
  intros [p f pe u sk] strict. unfold success. simpl. split.
  - destruct strict; rewrite ?andb_true_iff, ?Nat.eqb_eq; split.
    + intros (Hf & Hp & Hu). auto.
    + intros (Hf & H). destruct (H eq_refl). auto.
    + intros (Hf & _). split; [exact Hf | discriminate].
    + intros (Hf & _). auto.
  - intros ->. simpl.
    destruct pe as [|pe]; destruct u as [|u]; simpl; split;
      try (intros [_ H]; discriminate H);
      try (intros [H|H]; congruence);
      try (intros _; split; reflexivity);
      intros _; solve [left; discriminate | right; discriminate].
Qed.

(** "one" passes and nothing matches "two": the run succeeds, and fails in
    strict mode. *)
Lemma strict_mode_decision_witness :
  tally (outputOf (runFeature suiteOne basicFeature 0)) = mkCounts 1 0 1 0 0 /\
  success (tally (outputOf (runFeature suiteOne basicFeature 0))) false = true /\
  success (tally (outputOf (runFeature suiteOne basicFeature 0))) true = false.
Proof.
  split; [reflexivity|].
  apply (proj2 (proj2 (strict_mode_decision
                         (tally (outputOf (runFeature suiteOne basicFeature 0)))
                         true) eq_refl)).
  left. discriminate.
Defined.

(** * Further properties of the engine *)

(** ** Counting in an output *)

Section Counting.

Lemma outcomes_app (a b : list Event) : outcomes (a ++ b) = outcomes a ++ outcomes b.
Proof. unfold outcomes. apply flat_map_app. Qed.

Lemma outcomes_skipped (l : list gherkin.Step) :
  outcomes (map FmtSkipped l) = map (fun st => (st, Skipped)) l.
Proof. induction l as [|st l IH]; simpl; [|rewrite <- IH]; reflexivity. Qed.

Lemma countOutcome_app (o : Outcome) (a b : list Event) :
  countOutcome o (a ++ b) = countOutcome o a + countOutcome o b.
Proof. unfold countOutcome. rewrite filter_app, length_app. reflexivity. Qed.

Lemma countOutcome_skipped (o : Outcome) (l : list gherkin.Step) :
  countOutcome o (map FmtSkipped l) =
  match o with Skipped => length l | _ => 0 end.
Proof.
  unfold countOutcome.
  induction l as [|st l IH]; simpl; destruct o; simpl in *; auto.
Qed.

Lemma invocations_app (a b : list Event) :
  invocations (a ++ b) = invocations a + invocations b.
Proof. unfold invocations. rewrite filter_app, length_app. reflexivity. Qed.

Lemma invocations_skipped (l : list gherkin.Step) :
  invocations (map FmtSkipped l) = 0.
Proof. unfold invocations. induction l; simpl; auto. Qed.

Lemma backgroundRuns_app (a b : list Event) :
  backgroundRuns (a ++ b) = backgroundRuns a + backgroundRuns b.
Proof. unfold backgroundRuns. rewrite filter_app, length_app. reflexivity. Qed.

Lemma scenarioNodes_app (a b : list Event) :
  scenarioNodes (a ++ b) = scenarioNodes a ++ scenarioNodes b.
Proof. unfold scenarioNodes. apply flat_map_app. Qed.

Lemma scenarioNodes_skipped (l : list gherkin.Step) :
  scenarioNodes (map FmtSkipped l) = [].
Proof. induction l; simpl; auto. Qed.

Lemma backgroundRuns_skipped (l : list gherkin.Step) :
  backgroundRuns (map FmtSkipped l) = 0.
Proof. unfold backgroundRuns. induction l; simpl; auto. Qed.

End Counting.

(** The cases of the first step of [runSteps]: it passes, it stops with
    Pending, it stops with Failed, or it ends the run. *)
Ltac first_step s step w w0 E :=
  rewrite (runSteps_cons _ s step);
  destruct (runStep_cases _ s step w)
    as [(?i & ?args & w0 & E)
       |[(?e & w0 & ?out & E & [->|(?i & ?args & ->)])
        |(?i & ?args & w0 & E)]];
  rewrite E.

(** ** One report per step *)

(** X1.  When [runSteps] returns, its output reports exactly one outcome
    for each step of the list, in the order of the list.  When a handler
    ends the run, the steps before the one that was running were each
    reported Passed and nothing is reported for that step or a later one. *)
Theorem runSteps_reports_each_step_once :
  forall (World : Type) (s : suite World) (l : list gherkin.Step) (w : World),
    match runSteps s l w with
    | Done _ _ out => map fst (outcomes out) = l
    | Crashed _ _ out =>
        exists pre step post,
          l = pre ++ step :: post /\
          outcomes out = map (fun st => (st, Passed)) pre
    end.
Proof.
  intros World s l. induction l as [|step l IH]; intro w.
  - reflexivity.
  - first_step s step w w0 E.
    + specialize (IH w0). destruct (runSteps s l w0) as [b w1 o|p w1 o]; simpl.
      * f_equal. exact IH.
      * destruct IH as (pre & st & post & -> & Ho).
        exists (step :: pre), st, post. simpl. rewrite Ho. auto.
    + simpl. rewrite outcomes_skipped, map_map. simpl. rewrite map_id. reflexivity.
    + simpl. rewrite outcomes_skipped, map_map. simpl. rewrite map_id. reflexivity.
    + exists [], step, l. auto.
Qed.

(** X2.  [runSteps] returns false exactly when every step of the list was
    reported Passed. *)
Theorem runSteps_false_iff_all_passed :
  forall (World : Type) (s : suite World) (l : list gherkin.Step)
         (w w' : World) (b : bool) (out : list Event),
    runSteps s l w = Done b w' out ->
    (b = false <-> outcomes out = map (fun st => (st, Passed)) l).
Proof.
  intros World s l. induction l as [|step l IH]; intros w w' b out H.
  - inversion H; subst. split; reflexivity.
  - revert H. first_step s step w w0 E; intro H.
    + destruct (runSteps s l w0) as [b1 w1 o|p w1 o] eqn:R; simpl in H;
        inversion H; subst.
      specialize (IH _ _ _ _ R). simpl. split.
      * intro Hb. f_equal. apply IH, Hb.
      * intro Ho. inversion Ho. apply IH. assumption.
    + inversion H; subst. simpl. split; discriminate.
    + inversion H; subst. simpl. split; discriminate.
    + discriminate.
Qed.

Lemma runSteps_false_iff_all_passed_witness :
  outcomes [HandleStep 0 []; FmtPassed one 0; HandleStep 1 []; FmtPassed two 1]
    = map (fun st => (st, Passed)) [one; two].
Proof.
  apply (proj1 (runSteps_false_iff_all_passed nat suitePassing [one; two] 0 2
                  false _ eq_refl)).
  reflexivity.
Defined.

(** X3.  The output of [runSteps] reports at most one Failed or Pending
    outcome: exactly one when it returns true, none when it returns false
    or when a handler ends the run. *)
Theorem runSteps_at_most_one_stop :
  forall (World : Type) (s : suite World) (l : list gherkin.Step) (w : World),
    countOutcome Failed (outputOf (runSteps s l w)) +
    countOutcome Pending (outputOf (runSteps s l w)) =
    match runSteps s l w with Done true _ _ => 1 | _ => 0 end.
Proof.
  intros World s l. induction l as [|step l IH]; intro w.
  - reflexivity.
  - first_step s step w w0 E.
    + specialize (IH w0). rewrite outputOf_after, !countOutcome_app.
      destruct (runSteps s l w0) as [b w1 o|p w1 o]; simpl in *; exact IH.
    + unfold outputOf. rewrite !countOutcome_app, !countOutcome_skipped. reflexivity.
    + unfold outputOf. rewrite !countOutcome_app, !countOutcome_skipped. reflexivity.
    + reflexivity.
Qed.

(** X4.  In the output of [runSteps] every handler invocation is followed
    by the report of a Passed or Failed outcome, except the one invocation
    that ends the run: the number of invocations is the number of Passed
    and Failed outcomes, plus one when the run is ended by a handler.  A
    Pending or Skipped step invokes nothing. *)
Theorem runSteps_invocations :
  forall (World : Type) (s : suite World) (l : list gherkin.Step) (w : World),
    invocations (outputOf (runSteps s l w)) =
    countOutcome Passed (outputOf (runSteps s l w)) +
    countOutcome Failed (outputOf (runSteps s l w)) +
    (if crashed (runSteps s l w) then 1 else 0).
Proof.
  intros World s l. induction l as [|step l IH]; intro w.
  - reflexivity.
  - first_step s step w w0 E.
    + specialize (IH w0).
      rewrite outputOf_after, invocations_app, !countOutcome_app, IH.
      destruct (runSteps s l w0); simpl; lia.
    + unfold outputOf.
      rewrite invocations_app, !countOutcome_app, invocations_skipped,
        !countOutcome_skipped. reflexivity.
    + unfold outputOf.
      rewrite invocations_app, !countOutcome_app, invocations_skipped,
        !countOutcome_skipped. reflexivity.
    + reflexivity.
Qed.

(** X5.  Running a concatenation of two step lists: the first list runs;
    when it returns false the second runs from the world it left; when it
    returns true every step of the second list is skipped; when a handler
    ends the run the second list is not reached. *)
Theorem runSteps_app :
  forall (World : Type) (s : suite World) (l1 l2 : list gherkin.Step)
         (w : World),
    runSteps s (l1 ++ l2) w =
    match runSteps s l1 w with
    | Done false w' out => after out (runSteps s l2 w')
    | Done true w' out => Done true w' (out ++ map FmtSkipped l2)
    | Crashed p w' out => Crashed p w' out
    end.
Proof.
  intros World s l1 l2. induction l1 as [|step l1 IH]; intro w.
  - simpl. rewrite after_nil. reflexivity.
  - simpl app. rewrite (runSteps_cons _ s step (l1 ++ l2)).
    first_step s step w w0 E.
    + rewrite IH. destruct (runSteps s l1 w0) as [[|] w1 o|p w1 o]; simpl;
        try reflexivity.
      rewrite after_after. reflexivity.
    + rewrite map_app. reflexivity.
    + rewrite map_app. reflexivity.
    + reflexivity.
Qed.

(** ** When a step is Pending, and when it ends the run *)

(** X6.  [runStep] reports a step as Pending exactly when no registered
    expression matches its text. *)
Theorem runStep_pending_iff_unmatched :
  forall (World : Type) (s : suite World) (step : gherkin.Step) (w : World),
    outcomes (outputOf (runStep s step w)) = [(step, Pending)] <->
    findMatch (steps s) (gherkin.Text step) = None.
Proof.
  intros World s step w. unfold runStep.
  destruct (findMatch (steps s) (gherkin.Text step)) as [[[i h] args]|].
  - destruct (handler h args w) as [[[e|]|[e|m]] w']; simpl;
      split; discriminate.
  - simpl. split; reflexivity.
Qed.

Lemma runStep_pending_iff_unmatched_witness :
  findMatch (steps suiteOne) (gherkin.Text two) = None.
Proof.
  apply (proj1 (runStep_pending_iff_unmatched nat suiteOne two 0)).
  reflexivity.
Defined.

(** X7.  [runStep] ends the run exactly when an expression matches the
    step and the handler of the first match panics with a value that is
    not an [error]. *)
Theorem runStep_crashes_iff :
  forall (World : Type) (s : suite World) (step : gherkin.Step) (w : World),
    crashed (runStep s step w) = true <->
    exists i h args m,
      findMatch (steps s) (gherkin.Text step) = Some (i, h, args) /\
      fst (handler h args w) = Panic (PanicString m).
Proof.
  intros World s step w. unfold runStep.
  destruct (findMatch (steps s) (gherkin.Text step)) as [[[i h] args]|].
  - destruct (handler h args w) as [[[e|]|[e|m]] w'] eqn:Hh; simpl; split;
      try discriminate;
      try (intros (i' & h' & args' & m' & Hf & Hp); inversion Hf; subst;
           rewrite Hh in Hp; discriminate).
    + intros _. exists i, h, args, m. rewrite Hh. auto.
    + reflexivity.
  - simpl. split; [discriminate|].
    intros (i & h & args & m & Hf & _). discriminate.
Qed.

Lemma runStep_crashes_iff_witness :
  crashed (runStep suiteCukes (cukes "x") 0) = true.
Proof.
  apply (proj2 (runStep_crashes_iff nat suiteCukes (cukes "x") 0)).
  eexists 1, _, _, _. split; reflexivity.
Defined.

(** ** Runs that no handler ends *)

Section Reported.

Variable World : Type.
Variable s : suite World.

Hypothesis safe :
  forall h, In h (steps s) ->
  forall args w, forall m, fst (handler h args w) <> Panic (PanicString m).

Lemma bind_reported {A B : Type} (m : M World A) (k : A -> M World B) :
  (forall w, allReported (m w)) ->
  (forall a w, allReported (k a w)) ->
  forall w, allReported (bind m k w).
Proof.
  intros Hm Hk w. unfold bind. destruct (Hm w) as [Hc Hb].
  destruct (m w) as [a w1 o|p w1 o]; [|discriminate]. cbn [outputOf] in Hb.
  destruct (Hk a w1) as [Hc2 Hb2].
  destruct (k a w1) as [b w2 o2|p w2 o2]; [|discriminate]. cbn [outputOf] in Hb2.
  split; [reflexivity|]. cbn [after outputOf].
  rewrite invocations_app, !countOutcome_app. lia.
Qed.

Lemma ret_reported {A : Type} (a : A) (w : World) : allReported (ret a w).
Proof. split; reflexivity. Qed.

Lemma node_reported (n : Node) (w : World) : allReported (emit (FmtNode n) w).
Proof. split; reflexivity. Qed.

Lemma skipped_reported (st : gherkin.Step) (w : World) :
  allReported (emit (FmtSkipped st) w).
Proof. split; reflexivity. Qed.

Lemma runStep_reported step w : allReported (runStep s step w).
Proof.
  unfold runStep.
  pose proof (findMatchFrom_spec World (steps s) (gherkin.Text step) 0) as S.
  unfold findMatch.
  destruct (findMatchFrom 0 (steps s) (gherkin.Text step)) as [[[i h] args]|];
    [|split; reflexivity].
  destruct S as (_ & Hn & _). apply nth_error_In in Hn.
  pose proof (safe h Hn args w) as Hs.
  destruct (handler h args w) as [[[e|]|[e|m]] w']; try (split; reflexivity).
  exfalso. apply (Hs m). reflexivity.
Qed.

Lemma runStepsFrom_reported l : forall b w,
  allReported (runStepsFrom s b l w).
Proof.
  induction l as [|step l IH]; intros b w; simpl.
  - apply ret_reported.
  - destruct b; apply bind_reported; intros.
    + apply skipped_reported.
    + apply IH.
    + apply runStep_reported.
    + apply IH.
Qed.

Lemma skipSteps_reported l : forall w, allReported (skipSteps s l w).
Proof.
  induction l as [|step l IH]; intro w; simpl.
  - apply ret_reported.
  - apply bind_reported; intros; [apply skipped_reported|apply IH].
Qed.

Lemma runScenario_reported f b sc w : allReported (runScenario s f b sc w).
Proof.
  unfold runScenario.
  apply bind_reported; intros.
  - unfold runBackground.
    destruct (gherkin.Feature_Background f) as [bg|]; [|apply ret_reported].
    destruct b; cbn [negb]; [apply ret_reported|].
    apply bind_reported; intros; [apply node_reported|apply runStepsFrom_reported].
  - apply bind_reported; intros; [apply node_reported|].
    apply bind_reported; intros; [|apply ret_reported].
    destruct a; [apply skipSteps_reported|].
    apply bind_reported; intros; [apply runStepsFrom_reported|apply ret_reported].
Qed.

Lemma runScenarios_reported f scs : forall b w,
  allReported (runScenarios s f b scs w).
Proof.
  induction scs as [|sc scs IH]; intros b w; simpl.
  - apply ret_reported.
  - apply bind_reported; intros; [apply runScenario_reported|apply IH].
Qed.

Lemma runFeatures_reported fs : forall w, allReported (runFeatures s fs w).
Proof.
  induction fs as [|f fs IH]; intro w; simpl.
  - apply ret_reported.
  - apply bind_reported; intros; [|apply IH].
    unfold runFeature.
    apply bind_reported; intros; [apply node_reported|].
    apply bind_reported; intros; [apply runScenarios_reported|apply ret_reported].
Qed.

End Reported.

(** X8.  When no registered handler panics with a value that is not an
    [error], [Run] returns, whatever the features and the world, and every
    handler invocation in its output is matched by the report of a Passed
    or Failed outcome; a step whose handler returns an error, or panics
    with an [error] value, is reported Failed with that error. *)
Theorem Run_returns :
  forall (World : Type) (s : suite World),
    (forall h, In h (steps s) ->
     forall args w m, fst (handler h args w) <> Panic (PanicString m)) ->
    (forall w,
       crashed (Run s w) = false /\
       invocations (outputOf (Run s w)) =
         countOutcome Passed (outputOf (Run s w)) +
         countOutcome Failed (outputOf (Run s w))) /\
    (forall step w i h args e,
       findMatch (steps s) (gherkin.Text step) = Some (i, h, args) ->
       fst (handler h args w) = Return (Some e) \/
       fst (handler h args w) = Panic (PanicError e) ->
       runStep s step w =
         Done (Some e) (snd (handler h args w))
           [HandleStep i args; FmtFailed step i e]).
Proof.
  intros World s Hsafe. split.
  - intro w. unfold Run. apply (runFeatures_reported World s Hsafe).
  - intros step w i h args e Hm He. unfold runStep. rewrite Hm.
    destruct (handler h args w) as [r w']. simpl in He |- *.
    destruct He as [->| ->]; reflexivity.
Qed.

Lemma Run_returns_witness :
  crashed (Run mixedRun 0) = false /\
  invocations (outputOf (Run mixedRun 0)) =
    countOutcome Passed (outputOf (Run mixedRun 0)) +
    countOutcome Failed (outputOf (Run mixedRun 0)).
Proof.
  refine (proj1 (Run_returns nat mixedRun _) 0).
  intros h [<-|[<-|[<-|[]]]] args w m; discriminate.
Defined.

(** ** Registering one more definition *)

Lemma findMatchFrom_app {World : Type} (hs hs' : list (stepMatchHandler World))
  (text : string) : forall k,
  findMatchFrom k (hs ++ hs') text =
  match findMatchFrom k hs text with
  | Some r => Some r
  | None => findMatchFrom (k + length hs) hs' text
  end.
Proof.
  induction hs as [|h hs IH]; intro k; simpl.
  - rewrite Nat.add_0_r. reflexivity.
  - destruct (0 <? length (FindStringSubmatch (expr h) text))%nat.
    + reflexivity.
    + rewrite IH. replace (S k + length hs) with (k + S (length hs)) by lia.
      reflexivity.
Qed.

(** X9.  After [Step s e h], a text that matched a definition of [s]
    resolves as before, to the same definition with the same arguments; a
    text that matched none resolves to the new definition, at the index
    [len(s.steps)] had before, when [e] matches it, and to nothing
    otherwise. *)
Theorem Step_findMatch :
  forall (World : Type) (s : suite World) (e : Regexp) (h : StepHandler World)
         (text : string),
    findMatch (steps (Step s e h)) text =
    match findMatch (steps s) text with
    | Some r => Some r
    | None =>
        if (0 <? length (FindStringSubmatch e text))%nat
        then Some (length (steps s), mkStepMatchHandler h e,
                   tl (FindStringSubmatch e text))
        else None
    end.
Proof.
  intros World s e h text. unfold findMatch, Step. simpl steps.
  rewrite findMatchFrom_app. reflexivity.
Qed.

(** X10.  Registering one more definition does not change how a step runs
    when a definition registered before matches its text: the same handler
    is invoked on the same arguments and the same outcome is reported. *)
Theorem Step_keeps_matched_steps :
  forall (World : Type) (s : suite World) (e : Regexp) (h : StepHandler World)
         (step : gherkin.Step) (w : World),
    findMatch (steps s) (gherkin.Text step) <> None ->
    runStep (Step s e h) step w = runStep s step w.
Proof.
  intros World s e h step w Hm. unfold runStep.
  unfold findMatch, Step. simpl steps. rewrite findMatchFrom_app.
  fold (findMatch (steps s) (gherkin.Text step)).
  destruct (findMatch (steps s) (gherkin.Text step)); [reflexivity|].
  contradiction.
Qed.

Lemma Step_keeps_matched_steps_witness :
  runStep (Step suiteOne (reGroup EmptyString EmptyString) errorStep) one 0 =
  runStep suiteOne one 0.
Proof.
  apply (Step_keeps_matched_steps nat suiteOne). discriminate.
Defined.

(** ** Nodes of a feature *)

Section Nodes.

Variable World : Type.
Variable s : suite World.

(** [runSteps] announces no node. *)
Lemma runSteps_no_nodes (l : list gherkin.Step) : forall w,
  scenarioNodes (outputOf (runSteps s l w)) = [] /\
  backgroundRuns (outputOf (runSteps s l w)) = 0.
Proof.
  induction l as [|step l IH]; intro w.
  - split; reflexivity.
  - first_step s step w w0 E.
    + rewrite outputOf_after, scenarioNodes_app, backgroundRuns_app.
      destruct (IH w0) as [-> ->]. split; reflexivity.
    + unfold outputOf.
      rewrite scenarioNodes_app, backgroundRuns_app, scenarioNodes_skipped,
        backgroundRuns_skipped. split; reflexivity.
    + unfold outputOf.
      rewrite scenarioNodes_app, backgroundRuns_app, scenarioNodes_skipped,
        backgroundRuns_skipped. split; reflexivity.
    + split; reflexivity.
Qed.

Lemma skippedScenario_nodes (scs : list gherkin.Scenario) :
  scenarioNodes (flat_map skippedScenario scs) = scs /\
  backgroundRuns (flat_map skippedScenario scs) = 0.
Proof.
  induction scs as [|sc scs [IH1 IH2]]; simpl.
  - split; reflexivity.
  - rewrite scenarioNodes_app, scenarioNodes_skipped, IH1.
    change (backgroundRuns
              (FmtNode (NScenario sc) ::
               map FmtSkipped (gherkin.Scenario_Steps sc) ++
               flat_map skippedScenario scs))
      with (backgroundRuns
              (map FmtSkipped (gherkin.Scenario_Steps sc) ++
               flat_map skippedScenario scs)).
    rewrite backgroundRuns_app, backgroundRuns_skipped, IH2.
    split; reflexivity.
Qed.

(** The background part of an iteration announces no scenario; it
    announces the background once when there is one and the flag is unset,
    and then only; entered with the flag set, it returns it set. *)
Lemma runBackground_nodes f b w :
  scenarioNodes (outputOf (runBackground s f b w)) = [] /\
  backgroundRuns (outputOf (runBackground s f b w)) =
    match gherkin.Feature_Background f with
    | Some _ => if b then 0 else 1
    | None => 0
    end /\
  (b = true -> exists w', runBackground s f b w = Done true w' []).
Proof.
  unfold runBackground.
  destruct (gherkin.Feature_Background f) as [bg|]; destruct b; simpl;
    try (repeat split; try reflexivity; intros _; eexists; reflexivity).
  - unfold bind, emit. rewrite outputOf_after, scenarioNodes_app, backgroundRuns_app.
    destruct (runSteps_no_nodes (gherkin.Background_Steps bg) w) as [-> ->].
    repeat split; try reflexivity. discriminate.
  - repeat split; try reflexivity. discriminate.
Qed.

(** One iteration of the loop of [runFeature]. *)
Lemma runScenario_nodes f b sc w :
  backgroundRuns (outputOf (runScenario s f b sc w)) =
    match gherkin.Feature_Background f with
    | Some _ => if b then 0 else 1
    | None => 0
    end /\
  match runScenario s f b sc w with
  | Done b' _ out => scenarioNodes out = [sc] /\ (b = true -> b' = true)
  | Crashed _ _ out => scenarioNodes out = [] \/ scenarioNodes out = [sc]
  end.
Proof.
  rewrite runScenario_eq.
  destruct (runBackground_nodes f b w) as (Hn & Hb & Ht).
  destruct (runBackground s f b w) as [[|] w1 o1|p w1 o1]; simpl in Hn, Hb.
  - unfold outputOf, skippedScenario.
    change (o1 ++ FmtNode (NScenario sc) ::
                  map FmtSkipped (gherkin.Scenario_Steps sc))
      with (o1 ++ [FmtNode (NScenario sc)] ++
                  map FmtSkipped (gherkin.Scenario_Steps sc)).
    rewrite !backgroundRuns_app, !scenarioNodes_app, Hn, Hb,
      backgroundRuns_skipped, scenarioNodes_skipped.
    split; [simpl; lia|]. split; [reflexivity|]. reflexivity.
  - destruct (runSteps_no_nodes (gherkin.Scenario_Steps sc) w1) as [Hn2 Hb2].
    assert (Hflag : b = true -> false = true).
    { intro Hbt. destruct (Ht Hbt) as [w' Hd]. inversion Hd. }
    destruct (runSteps s (gherkin.Scenario_Steps sc) w1) as [b2 w2 o2|p w2 o2];
      simpl in Hn2, Hb2; unfold outputOf;
      change (o1 ++ FmtNode (NScenario sc) :: o2)
        with (o1 ++ [FmtNode (NScenario sc)] ++ o2);
      rewrite !backgroundRuns_app, !scenarioNodes_app, Hn, Hb, Hn2, Hb2.
    + split; [simpl; lia|]. split; [reflexivity|exact Hflag].
    + split; [simpl; lia|]. right. reflexivity.
  - split; [exact Hb|]. left. exact Hn.
Qed.

Lemma runScenarios_nodes f (scs : list gherkin.Scenario) : forall b w,
  match runScenarios s f b scs w with
  | Done _ _ out => scenarioNodes out = scs
  | Crashed _ _ out => exists n, scenarioNodes out = firstn n scs
  end.
Proof.
  induction scs as [|sc scs IH]; intros b w.
  - reflexivity.
  - simpl. unfold bind.
    destruct (runScenario_nodes f b sc w) as [_ H].
    destruct (runScenario s f b sc w) as [b' w1 o|p w1 o].
    + destruct H as [Hn _]. specialize (IH b' w1).
      destruct (runScenarios s f b' scs w1) as [b2 w2 o2|p w2 o2]; simpl;
        rewrite scenarioNodes_app, Hn.
      * simpl. f_equal. exact IH.
      * destruct IH as [n ->]. exists (S n). reflexivity.
    + destruct H as [->| ->]; [exists 0|exists 1]; reflexivity.
Qed.

Lemma runScenarios_backgroundRuns f (scs : list gherkin.Scenario) : forall b w,
  backgroundRuns (outputOf (runScenarios s f b scs w)) <=
    (if b then 0 else length scs) /\
  (forall w' out,
     runScenarios s f b scs w = Done false w' out ->
     b = false /\
     (gherkin.Feature_Background f <> None -> backgroundRuns out = length scs)).
Proof.
  induction scs as [|sc scs IH]; intros b w.
  - simpl. split; [destruct b; auto|].
    intros w' out H. inversion H; subst. split; reflexivity.
  - simpl. unfold bind.
    destruct (runScenario_nodes f b sc w) as [Hk H].
    destruct (runScenario s f b sc w) as [b' w1 o|p w1 o]; simpl in Hk.
    + destruct H as [_ Hflag]. destruct (IH b' w1) as [Hle Heq].
      rewrite outputOf_after, backgroundRuns_app, Hk. split.
      * destruct b.
        -- pose proof (Hflag eq_refl) as Hb'. subst b'. simpl in Hle.
           destruct (gherkin.Feature_Background f); lia.
        -- destruct (gherkin.Feature_Background f); destruct b'; simpl in Hle; lia.
      * intros w' out Hd.
        destruct (runScenarios s f b' scs w1) as [b2 w2 o2|p w2 o2];
          simpl in Hd; inversion Hd; subst.
        destruct (Heq w' o2 eq_refl) as [-> Hbg].
        destruct b; [specialize (Hflag eq_refl); discriminate|].
        split; [reflexivity|]. intro Hne.
        rewrite backgroundRuns_app, Hk, (Hbg Hne).
        destruct (gherkin.Feature_Background f); [reflexivity|contradiction].
    + split; [|discriminate].
      unfold outputOf. rewrite Hk.
      destruct b; destruct (gherkin.Feature_Background f); lia.
Qed.

End Nodes.

(** X11.  When [runFeature] returns, its output announces every scenario
    of the feature exactly once, in order, skipped or not; when a handler
    ends the run, it announces a prefix of them. *)
Theorem runFeature_announces_each_scenario :
  forall (World : Type) (s : suite World) (f : gherkin.Feature) (w : World),
    match runFeature s f w with
    | Done _ _ out => scenarioNodes out = gherkin.Scenarios f
    | Crashed _ _ out => exists n, scenarioNodes out = firstn n (gherkin.Scenarios f)
    end.
Proof.
  intros World s f w. unfold runFeature, bind, emit, ret.
  pose proof (runScenarios_nodes World s f (gherkin.Scenarios f) false w) as H.
  destruct (runScenarios s f false (gherkin.Scenarios f) w) as [b w1 o|p w1 o];
    simpl.
  - rewrite scenarioNodes_app, H. simpl. apply app_nil_r.
  - exact H.
Qed.

(** X12.  The loop of [runFeature] runs the background at most once per
    scenario, and not at all when the feature has none; when the feature
    has a background and the loop ends with the flag unset, the background
    was run, and announced, once for every scenario. *)
Theorem background_runs_per_scenario :
  forall (World : Type) (s : suite World) (f : gherkin.Feature)
         (scs : list gherkin.Scenario) (w : World),
    backgroundRuns (outputOf (runScenarios s f false scs w)) <= length scs /\
    (gherkin.Feature_Background f = None ->
     backgroundRuns (outputOf (runScenarios s f false scs w)) = 0) /\
    (forall w' out,
       gherkin.Feature_Background f <> None ->
       runScenarios s f false scs w = Done false w' out ->
       backgroundRuns out = length scs).
Proof.
  intros World s f scs w.
  destruct (runScenarios_backgroundRuns World s f scs false w) as [Hle Heq].
  split; [exact Hle|]. split.
  - intro Hnone. clear Hle Heq. revert w.
    assert (G : forall b w,
               backgroundRuns (outputOf (runScenarios s f b scs w)) = 0).
    { induction scs as [|sc scs IH]; intros b w; [reflexivity|].
      simpl. unfold bind.
      destruct (runScenario_nodes World s f b sc w) as [Hk _].
      rewrite Hnone in Hk.
      destruct (runScenario s f b sc w) as [b' w1 o|p w1 o]; simpl in Hk.
      - rewrite outputOf_after, backgroundRuns_app, Hk. apply IH.
      - exact Hk. }
    apply G.
  - intros w' out Hne Hd. destruct (Heq w' out Hd) as [_ H]. apply H, Hne.
Qed.

Lemma background_runs_per_scenario_witness :
  backgroundRuns
    (outputOf (runScenarios suitePassing withBackground false
                 [scenario1; scenario2] 0)) = 2.
Proof.
  apply (proj2 (proj2 (background_runs_per_scenario nat suitePassing
                         withBackground [scenario1; scenario2] 0)) 4 _).
  - discriminate.
  - reflexivity.
Defined.

(** ** Features without a background *)

Lemma runSteps_done_steps {World : Type} (s : suite World)
  (l : list gherkin.Step) : forall w b w' out,
  runSteps s l w = Done b w' out -> map fst (outcomes out) = l.
Proof.
  induction l as [|step l IH]; intros w b w' out H.
  - inversion H. reflexivity.
  - revert H. first_step s step w w0 E; intro H.
    + destruct (runSteps s l w0) as [b1 w1 o|p w1 o] eqn:R; simpl in H;
        inversion H; subst.
      simpl. f_equal. eapply IH. exact R.
    + inversion H; subst. simpl.
      rewrite outcomes_skipped, map_map. simpl. rewrite map_id. reflexivity.
    + inversion H; subst. simpl.
      rewrite outcomes_skipped, map_map. simpl. rewrite map_id. reflexivity.
    + discriminate.
Qed.

Lemma runScenarios_plain {World : Type} (s : suite World) (f : gherkin.Feature)
  (scs : list gherkin.Scenario) :
  gherkin.Feature_Background f = None ->
  forall w b w' out,
    runScenarios s f false scs w = Done b w' out ->
    b = false /\
    map fst (outcomes out) = flat_map gherkin.Scenario_Steps scs /\
    exists outs,
      Forall2 (fun sc o =>
                 exists w1 b1 w2,
                   runSteps s (gherkin.Scenario_Steps sc) w1 = Done b1 w2 o)
              scs outs /\
      out = flat_map (fun p => FmtNode (NScenario (fst p)) :: snd p)
                     (combine scs outs).
Proof.
  intro Hnone. induction scs as [|sc scs IH]; intros w b w' out H.
  - inversion H. split; [reflexivity|]. split; [reflexivity|].
    exists []. split; [constructor|reflexivity].
  - simpl in H. unfold bind in H. rewrite runScenario_eq in H.
    unfold runBackground in H. rewrite Hnone in H. unfold ret in H.
    destruct (runSteps s (gherkin.Scenario_Steps sc) w) as [b1 w1 o1|p w1 o1] eqn:R;
      [|discriminate].
    destruct (runScenarios s f false scs w1) as [b2 w2 o2|p w2 o2] eqn:R2;
      simpl in H; inversion H; subst.
    destruct (IH _ _ _ _ R2) as (-> & Ho & outs & HF & ->).
    split; [reflexivity|]. split.
    + change (outcomes (FmtNode (NScenario sc) :: o1 ++
                        flat_map (fun p => FmtNode (NScenario (fst p)) :: snd p)
                                 (combine scs outs)))
        with (outcomes (o1 ++
                        flat_map (fun p => FmtNode (NScenario (fst p)) :: snd p)
                                 (combine scs outs))).
      rewrite outcomes_app, map_app, Ho. simpl. f_equal.
      apply (runSteps_done_steps s _ _ _ _ _ R).
    + exists (o1 :: outs). split.
      * constructor; [|exact HF]. exists w, b1, w1. exact R.
      * reflexivity.
Qed.

(** X13.  In a feature without a background the stop of one scenario never
    reaches another.  When [runFeature] returns, its output is the feature
    node followed, for each scenario in order, by the scenario node and by
    the output of [runSteps] on the steps of that scenario, entered with
    its flag unset: a step is skipped only by a stop in its own scenario.
    So the output reports exactly one outcome for every step of every
    scenario, in order, and none for any other step. *)
Theorem plain_feature_reports_each_step_once :
  forall (World : Type) (s : suite World) (f : gherkin.Feature) (w w' : World)
         (out : list Event),
    gherkin.Feature_Background f = None ->
    runFeature s f w = Done tt w' out ->
    map fst (outcomes out) =
      flat_map gherkin.Scenario_Steps (gherkin.Scenarios f) /\
    exists outs,
      Forall2 (fun sc o =>
                 exists w1 b1 w2,
                   runSteps s (gherkin.Scenario_Steps sc) w1 = Done b1 w2 o)
              (gherkin.Scenarios f) outs /\
      out = FmtNode (NFeature f) ::
            flat_map (fun p => FmtNode (NScenario (fst p)) :: snd p)
                     (combine (gherkin.Scenarios f) outs).
Proof.
  intros World s f w w' out Hnone H.
  unfold runFeature, bind, emit, ret in H.
  destruct (runScenarios s f false (gherkin.Scenarios f) w)
    as [b w1 o|p w1 o] eqn:R; simpl in H; inversion H; subst.
  destruct (runScenarios_plain s f _ Hnone _ _ _ _ R) as (_ & Ho & outs & HF & E).
  rewrite app_nil_r. split; [exact Ho|].
  exists outs. split; [exact HF|]. rewrite E. reflexivity.
Qed.

Lemma plain_feature_reports_each_step_once_witness :
  map fst (outcomes (outputOf (runFeature suitePassing plainFeature 0))) =
    [gherkin.mkStep "zero"; two; two].
Proof.
  apply (proj1 (plain_feature_reports_each_step_once nat suitePassing
                  plainFeature 0 1 _ eq_refl eq_refl)).
Defined.

(** ** Several features *)

Lemma runFeatures_cons {World : Type} (s : suite World) (f : gherkin.Feature)
  (l : list gherkin.Feature) (w : World) :
  runFeatures s (f :: l) w =
  match runFeature s f w with
  | Done _ w' out => after out (runFeatures s l w')
  | Crashed p w' out => Crashed p w' out
  end.
Proof. reflexivity. Qed.

(** X14.  Running a concatenation of two feature lists: the first list
    runs, then the second from the world the first left, each feature
    starting with its flag unset; when a handler ends the run in the first
    list, no feature of the second runs. *)
Theorem runFeatures_app :
  forall (World : Type) (s : suite World) (l1 l2 : list gherkin.Feature)
         (w : World),
    runFeatures s (l1 ++ l2) w =
    match runFeatures s l1 w with
    | Done _ w' out => after out (runFeatures s l2 w')
    | Crashed p w' out => Crashed p w' out
    end.
Proof.
  intros World s l1 l2. induction l1 as [|f l1 IH]; intro w.
  - simpl. rewrite after_nil. reflexivity.
  - simpl app. rewrite !runFeatures_cons.
    destruct (runFeature s f w) as [[] w1 o|p w1 o]; [|reflexivity].
    rewrite IH. destruct (runFeatures s l1 w1) as [[] w2 o2|p w2 o2]; simpl.
    + rewrite after_after. reflexivity.
    + reflexivity.
Qed.

(** ** The integer accessor *)

Lemma parseUintLoop_nonneg (s : string) : forall n v,
  (0 <= n)%Z -> parseUintLoop s n = inl v -> (0 <= v)%Z.
Proof.
  induction s as [|c s IH]; intros n v Hn H; cbn [parseUintLoop] in H.
  - inversion H; subst. exact Hn.
  - destruct (digitOf c) as [d|] eqn:Hd; [|discriminate].
    assert (0 <= d)%Z.
    { unfold digitOf in Hd. cbv zeta in Hd.
      destruct ((48 <=? nat_of_ascii c)%nat && (nat_of_ascii c <=? 57)%nat);
        [|discriminate].
      inversion Hd. lia. }
    destruct (maxUint64 / 10 + 1 <=? n)%Z; [discriminate|].
    destruct (maxUint64 <? n * 10 + d)%Z; [discriminate|].
    apply (IH (n * 10 + d)%Z); [lia|exact H].
Qed.

Lemma ParseUint_nonneg (s : string) (v : Z) :
  ParseUint s = inl v -> (0 <= v)%Z.
Proof.
  unfold ParseUint. destruct s; [discriminate|].
  apply parseUintLoop_nonneg. lia.
Qed.

(** X15.  A value [Int] returns fits in an [int64]: it lies between
    [-2^63] and [2^63 - 1]. *)
Theorem Arg_Int_int64 :
  forall (a : Arg) (v : Z),
    Arg_Int a = inl v -> (- 2 ^ 63 <= v <= 2 ^ 63 - 1)%Z.
Proof.
  intros a v. unfold Arg_Int.
  destruct (ParseInt a) as [v0|e] eqn:E; [|discriminate].
  intro H. inversion H; subst v0. clear H. revert E. unfold ParseInt.
  destruct a as [|c rest]; [discriminate|]. cbv zeta.
  set (cutoff := (2 ^ 63)%Z).
  assert (Hc : cutoff = 9223372036854775808%Z) by reflexivity.
  clearbody cutoff.
  destruct (ParseUint
              (if Ascii.eqb c "+"%char || Ascii.eqb c "-"%char
               then rest else String c rest))
    as [un|e] eqn:U; [|discriminate].
  apply ParseUint_nonneg in U.
  destruct (Ascii.eqb c "-"%char); cbn [negb andb];
    destruct (cutoff <=? un)%Z eqn:L1; destruct (cutoff <? un)%Z eqn:L2;
    try discriminate; intro H; inversion H; subst v;
    try apply Z.leb_gt in L1; try apply Z.ltb_ge in L2; lia.
Qed.

Lemma Arg_Int_int64_witness :
  (- 2 ^ 63 <= - 9223372036854775808 <= 2 ^ 63 - 1)%Z.
Proof.
  apply (Arg_Int_int64 "-9223372036854775808" (- 9223372036854775808) eq_refl).
Defined.

(** * The concurrency coordinator *)

(** ** Runs that do not look at the world *)

Section Blind.

Variable World : Type.

Lemma sameRun_after {A : Type} (a : list Event) (r1 r2 : Res World A) :
  sameRun r1 r2 -> sameRun (after a r1) (after a r2).
Proof.
  destruct r1, r2; simpl; try contradiction; intros [-> ->]; split; reflexivity.
Qed.

Lemma bind_blind {A B : Type} (m : M World A) (k : A -> M World B) :
  (forall w1 w2, sameRun (m w1) (m w2)) ->
  (forall a w1 w2, sameRun (k a w1) (k a w2)) ->
  forall w1 w2, sameRun (bind m k w1) (bind m k w2).
Proof.
  intros Hm Hk w1 w2. unfold bind. specialize (Hm w1 w2).
  destruct (m w1) as [a u1 o1|p u1 o1]; destruct (m w2) as [a' u2 o2|p' u2 o2];
    simpl in Hm; try contradiction.
  - destruct Hm as [-> ->]. apply sameRun_after, Hk.
  - exact Hm.
Qed.

Lemma ret_blind {A : Type} (a : A) (w1 w2 : World) :
  sameRun (ret a w1) (ret a w2).
Proof. simpl. auto. Qed.

Lemma emit_blind (e : Event) (w1 w2 : World) :
  sameRun (emit e w1) (emit e w2).
Proof. simpl. auto. Qed.

Variable s : suite World.

(** What a handler returns or panics with does not depend on the world. *)
Hypothesis stateless :
  forall h, In h (steps s) ->
  forall args w1 w2, fst (handler h args w1) = fst (handler h args w2).

Lemma runStep_blind step w1 w2 :
  sameRun (runStep s step w1) (runStep s step w2).
Proof.
  unfold runStep.
  pose proof (findMatchFrom_spec World (steps s) (gherkin.Text step) 0) as S.
  unfold findMatch.
  destruct (findMatchFrom 0 (steps s) (gherkin.Text step)) as [[[i h] args]|];
    [|simpl; auto].
  destruct S as (_ & Hn & _). apply nth_error_In in Hn.
  pose proof (stateless h Hn args w1 w2) as E.
  destruct (handler h args w1) as [r1 u1]; destruct (handler h args w2) as [r2 u2].
  simpl in E. subst r2.
  destruct r1 as [[e|]|[e|m]]; simpl; auto.
Qed.

Lemma runStepsFrom_blind l : forall b w1 w2,
  sameRun (runStepsFrom s b l w1) (runStepsFrom s b l w2).
Proof.
  induction l as [|step l IH]; intros b w1 w2; simpl.
  - auto.
  - destruct b; apply bind_blind; intros.
    + apply emit_blind.
    + apply IH.
    + apply runStep_blind.
    + apply IH.
Qed.

Lemma skipSteps_blind l : forall w1 w2,
  sameRun (skipSteps s l w1) (skipSteps s l w2).
Proof.
  induction l as [|step l IH]; intros w1 w2; simpl.
  - auto.
  - apply bind_blind; intros; [apply emit_blind|apply IH].
Qed.

Lemma runBackground_blind f b w1 w2 :
  sameRun (runBackground s f b w1) (runBackground s f b w2).
Proof.
  unfold runBackground.
  destruct (gherkin.Feature_Background f) as [bg|]; [|apply ret_blind].
  destruct b; cbn [negb]; [apply ret_blind|].
  apply bind_blind; intros; [apply emit_blind|apply runStepsFrom_blind].
Qed.

Lemma runScenario_blind f b sc w1 w2 :
  sameRun (runScenario s f b sc w1) (runScenario s f b sc w2).
Proof.
  unfold runScenario.
  apply bind_blind; intros; [apply runBackground_blind|].
  apply bind_blind; intros; [apply emit_blind|].
  apply bind_blind; intros; [|apply ret_blind].
  destruct a; [apply skipSteps_blind|].
  apply bind_blind; intros; [apply runStepsFrom_blind|apply ret_blind].
Qed.

Lemma runScenarios_blind f scs : forall b w1 w2,
  sameRun (runScenarios s f b scs w1) (runScenarios s f b scs w2).
Proof.
  induction scs as [|sc scs IH]; intros b w1 w2; simpl.
  - auto.
  - apply bind_blind; intros; [apply runScenario_blind|apply IH].
Qed.

Lemma runFeature_blind f w1 w2 :
  sameRun (runFeature s f w1) (runFeature s f w2).
Proof.
  unfold runFeature.
  apply bind_blind; intros; [apply emit_blind|].
  apply bind_blind; intros; [apply runScenarios_blind|apply ret_blind].
Qed.

(** ** One engine and one worker, by the features they run *)

Variable w0 : World.

Lemma runFeature_at f w :
  match runFeature s f w with
  | Done _ _ out =>
      crashed (runFeature s f w0) = false /\
      out = outputOf (runFeature s f w0)
  | Crashed _ _ _ => crashed (runFeature s f w0) = true
  end.
Proof.
  pose proof (runFeature_blind f w w0) as H.
  destruct (runFeature s f w); destruct (runFeature s f w0); simpl in *;
    try contradiction; auto.
  destruct H as [_ ->]. auto.
Qed.

Lemma runSequential_eq fs : forall w,
  runSequential s fs w =
  if existsb (fun f => crashed (runFeature s f w0)) fs then None
  else Some (flat_map (fun f => outputOf (runFeature s f w0)) fs).
Proof.
  unfold runSequential.
  induction fs as [|f fs IH]; intro w.
  - reflexivity.
  - rewrite runFeatures_cons. pose proof (runFeature_at f w) as H.
    destruct (runFeature s f w) as [[] w1 o|p w1 o].
    + destruct H as [Hc ->]. cbn [existsb flat_map]. rewrite Hc. cbn [orb].
      specialize (IH w1).
      destruct (runFeatures s fs w1) as [[] w2 o2|p w2 o2]; simpl;
        destruct (existsb (fun f0 => crashed (runFeature s f0 w0)) fs);
        try discriminate; [inversion IH; reflexivity|reflexivity].
    + cbn [existsb]. rewrite H. reflexivity.
Qed.

Lemma runWorker_eq jobs : forall w,
  runWorker s jobs w =
  if existsb (fun j => crashed (runFeature s (snd j) w0)) jobs then None
  else Some (map (fun j => (fst j, outputOf (runFeature s (snd j) w0))) jobs).
Proof.
  induction jobs as [|[i f] jobs IH]; intro w.
  - reflexivity.
  - cbn [runWorker existsb map fst snd]. pose proof (runFeature_at f w) as H.
    destruct (runFeature s f w) as [[] w1 o|p w1 o].
    + destruct H as [Hc ->]. rewrite Hc, (IH w1). cbn [orb].
      destruct (existsb (fun j => crashed (runFeature s (snd j) w0)) jobs);
        reflexivity.
    + rewrite H. reflexivity.
Qed.

Lemma runWorkers_eq workers :
  runWorkers s workers w0 =
  if existsb (existsb (fun j => crashed (runFeature s (snd j) w0))) workers
  then None
  else Some (flat_map
               (map (fun j => (fst j, outputOf (runFeature s (snd j) w0))))
               workers).
Proof.
  induction workers as [|jobs workers IH].
  - reflexivity.
  - cbn [runWorkers existsb flat_map]. rewrite runWorker_eq, IH.
    destruct (existsb (fun j => crashed (runFeature s (snd j) w0)) jobs);
      destruct (existsb (existsb (fun j => crashed (runFeature s (snd j) w0)))
                  workers); reflexivity.
Qed.

End Blind.

(** ** Every feature is given to one worker *)

Section Partition.

Local Open Scope nat_scope.

Variable C : nat.
Variable sched : nat -> nat.
Hypothesis workers_exist : C <> 0.

Variable cf : gherkin.Feature -> bool.
Variable fo : gherkin.Feature -> list Event.

Lemma workerOf_lt i : workerOf C sched i < C.
Proof. unfold workerOf. apply Nat.mod_upper_bound. exact workers_exist. Qed.

Lemma existsb_same {A : Type} (f g : A -> bool) (l : list A) :
  (forall x, In x l -> f x = g x) -> existsb f l = existsb g l.
Proof.
  induction l as [|x l IH]; intro H; simpl; [reflexivity|].
  rewrite (H x (or_introl eq_refl)), IH; [reflexivity|].
  intros y Hy. apply H. right. exact Hy.
Qed.

Lemma existsb_of_map {A B : Type} (p : B -> bool) (h : A -> B) (l : list A) :
  existsb p (map h l) = existsb (fun x => p (h x)) l.
Proof. induction l as [|x l IH]; simpl; [|rewrite IH]; reflexivity. Qed.

(** Among the workers [a .. a+n-1], worker [k0] and no other is picked. *)
Lemma existsb_pick (E : nat -> bool) (k0 : nat) (c : bool) : forall n a,
  a <= k0 < a + n ->
  existsb (fun k => (if k0 =? k then c else false) || E k) (seq a n) =
  c || existsb E (seq a n).
Proof.
  induction n as [|n IH]; intros a H; [lia|].
  cbn [seq existsb]. destruct (Nat.eqb_spec k0 a) as [->|Hne].
  - rewrite (existsb_same _ E (seq (S a) n)).
    + rewrite orb_assoc. reflexivity.
    + intros x Hx. apply in_seq in Hx.
      destruct (Nat.eqb_spec a x); [lia|reflexivity].
  - rewrite (IH (S a)) by lia. cbn [orb].
    destruct c; destruct (E a); reflexivity.
Qed.

Lemma flat_map_same {A B : Type} (f g : A -> list B) (l : list A) :
  (forall x, In x l -> f x = g x) -> flat_map f l = flat_map g l.
Proof.
  induction l as [|x l IH]; intro H; simpl; [reflexivity|].
  rewrite (H x (or_introl eq_refl)), IH; [reflexivity|].
  intros y Hy. apply H. right. exact Hy.
Qed.

Lemma flat_map_of_map {A B D : Type} (f : B -> list D) (h : A -> B)
  (l : list A) :
  flat_map f (map h l) = flat_map (fun x => f (h x)) l.
Proof. induction l as [|x l IH]; simpl; [|rewrite IH]; reflexivity. Qed.

Lemma flat_map_none {A B : Type} (l : list A) :
  flat_map (fun _ : A => @nil B) l = [].
Proof. induction l; simpl; auto. Qed.

Lemma flat_map_pick {A : Type} (X : list A) (k0 : nat) : forall n a,
  a <= k0 < a + n ->
  flat_map (fun k => if k0 =? k then X else []) (seq a n) = X.
Proof.
  induction n as [|n IH]; intros a H; [lia|].
  cbn [seq flat_map]. destruct (Nat.eqb_spec k0 a) as [->|Hne].
  - rewrite (flat_map_same _ (fun _ => []) (seq (S a) n)).
    + rewrite flat_map_none. apply app_nil_r.
    + intros x Hx. apply in_seq in Hx.
      destruct (Nat.eqb_spec a x); [lia|reflexivity].
  - rewrite (IH (S a)) by lia. reflexivity.
Qed.

(** A panic leaves some worker exactly when it leaves the one engine. *)
Lemma crash_partition (fs : list gherkin.Feature) : forall b,
  existsb (fun k => existsb (fun j => cf (snd j)) (assigned C sched k b fs))
          (seq 0 C) =
  existsb cf fs.
Proof.
  induction fs as [|f fs IH]; intro b.
  - cbn [assigned existsb]. induction (seq 0 C); simpl; auto.
  - rewrite (existsb_same _
               (fun k => (if workerOf C sched b =? k then cf f else false) ||
                         existsb (fun j => cf (snd j))
                                 (assigned C sched k (S b) fs))).
    + rewrite existsb_pick by (pose proof (workerOf_lt b); lia).
      rewrite IH. reflexivity.
    + intros k _. cbn [assigned].
      destruct (workerOf C sched b =? k); reflexivity.
Qed.

Lemma bufferOf_app (i : nat) (a b : list (nat * list Event)) :
  bufferOf i (a ++ b) = bufferOf i a ++ bufferOf i b.
Proof. unfold bufferOf. apply flat_map_app. Qed.

Lemma bufferOf_flat_map {A : Type} (i : nat)
  (h : A -> list (nat * list Event)) (l : list A) :
  bufferOf i (flat_map h l) = flat_map (fun k => bufferOf i (h k)) l.
Proof.
  induction l as [|x l IH]; simpl; [reflexivity|].
  rewrite bufferOf_app, IH. reflexivity.
Qed.

(** The buffers of the features from position [b] on hold nothing for a
    position before [b]. *)
Lemma bufferOf_before (fs : list gherkin.Feature) : forall b k i,
  i < b ->
  bufferOf i (map (fun j => (fst j, fo (snd j))) (assigned C sched k b fs)) = [].
Proof.
  induction fs as [|f fs IH]; intros b k i H; cbn [assigned].
  - reflexivity.
  - destruct (workerOf C sched b =? k).
    + cbn [map fst snd]. unfold bufferOf. cbn [flat_map fst snd].
      destruct (Nat.eqb_spec b i); [lia|].
      apply (IH (S b)). lia.
    + apply (IH (S b)). lia.
Qed.

Lemma bufferOf_assigned_cons (f : gherkin.Feature) (fs : list gherkin.Feature)
  (b k i : nat) :
  bufferOf i (map (fun j => (fst j, fo (snd j)))
                  (assigned C sched k b (f :: fs))) =
  (if (workerOf C sched b =? k) && (b =? i) then fo f else []) ++
  bufferOf i (map (fun j => (fst j, fo (snd j))) (assigned C sched k (S b) fs)).
Proof.
  cbn [assigned]. destruct (workerOf C sched b =? k); [|reflexivity].
  cbn [map fst snd andb]. unfold bufferOf. cbn [flat_map fst snd]. reflexivity.
Qed.

(** The merge reads only the buffers of the positions it flushes. *)
Lemma flush_same (fs : list gherkin.Feature) : forall b B1 B2,
  (forall i, b <= i -> bufferOf i B1 = bufferOf i B2) ->
  flush b fs B1 = flush b fs B2.
Proof.
  induction fs as [|f fs IH]; intros b B1 B2 H; cbn [flush].
  - reflexivity.
  - rewrite (H b (Nat.le_refl b)). f_equal.
    apply IH. intros i Hi. apply H. lia.
Qed.

(** The merge gives the outputs of the features in their order. *)
Lemma flush_partition (fs : list gherkin.Feature) : forall b,
  flush b fs
    (flat_map (fun k => map (fun j => (fst j, fo (snd j)))
                            (assigned C sched k b fs)) (seq 0 C)) =
  flat_map fo fs.
Proof.
  induction fs as [|f fs IH]; intro b.
  - reflexivity.
  - cbn [flush flat_map]. f_equal.
    + rewrite bufferOf_flat_map.
      rewrite (flat_map_same _
                 (fun k => if workerOf C sched b =? k then fo f else [])).
      * apply flat_map_pick. pose proof (workerOf_lt b). lia.
      * intros k _. rewrite bufferOf_assigned_cons, Nat.eqb_refl, andb_true_r.
        rewrite (bufferOf_before fs (S b) k b) by lia. apply app_nil_r.
    + rewrite <- (IH (S b)). apply flush_same. intros i Hi.
      rewrite !bufferOf_flat_map. apply flat_map_same. intros k _.
      rewrite bufferOf_assigned_cons.
      destruct (Nat.eqb_spec b i); [lia|]. rewrite andb_false_r. reflexivity.
Qed.

End Partition.

(** ** Worker counts *)




(** * The progress output read back by the tests *)

Module RunTestFacts.

Import RunTest.

Open Scope string_scope.

(** ** Appending and prefixes *)

Lemma app_assoc_s (a b c : string) : (a ++ b) ++ c = a ++ (b ++ c).
Proof. induction a as [|x a IH]; simpl; [|rewrite IH]; reflexivity. Qed.

Lemma app_empty_r (a : string) : a ++ EmptyString = a.
Proof. induction a as [|x a IH]; simpl; [|rewrite IH]; reflexivity. Qed.

Lemma hasChar_app (c : ascii) (a b : string) :
  hasChar c (a ++ b) = hasChar c a || hasChar c b.
Proof.
  induction a as [|x a IH]; simpl; [reflexivity|].
  rewrite IH, orb_assoc. reflexivity.
Qed.

Lemma prefix_app (p b : string) : prefix p (p ++ b) = true.
Proof.
  induction p as [|x p IH]; simpl.
  - destruct b; reflexivity.
  - destruct (ascii_dec x x); [exact IH|contradiction].
Qed.

Lemma prefix_exists (p : string) : forall s,
  prefix p s = true -> exists b, s = p ++ b.
Proof.
  induction p as [|x p IH]; intros s H.
  - exists s. reflexivity.
  - destruct s as [|y s]; simpl in H; [discriminate|].
    destruct (ascii_dec x y) as [->|]; [|discriminate].
    destruct (IH s H) as [b ->]. exists b. reflexivity.
Qed.

Lemma prefix_other (c0 c : ascii) (p r : string) :
  Ascii.eqb c c0 = false -> prefix (String c0 p) (String c r) = false.
Proof.
  intro H. simpl. destruct (ascii_dec c0 c) as [->|]; [|reflexivity].
  rewrite Ascii.eqb_refl in H. discriminate.
Qed.

(** ** [strings.Split] *)

Section Separator.

Variable c0 : ascii.
Variable p0 : string.

Let sep : string := String c0 p0.

Lemma splitFrom_skip (x : string) : forall cur b,
  splitFrom sep (String.length x) cur (x ++ b) = splitFrom sep 0 cur b.
Proof.
  induction x as [|c x IH]; intros cur b; simpl.
  - destruct b; reflexivity.
  - apply IH.
Qed.

(** At a separator the piece read so far ends. *)
Lemma splitFrom_sep (cur b : string) :
  splitFrom sep 0 cur (sep ++ b) = cur :: splitFrom sep 0 EmptyString b.
Proof.
  unfold sep at 2. cbn [append splitFrom].
  change (String c0 (p0 ++ b)) with (sep ++ b). rewrite prefix_app.
  replace (String.length sep - 1) with (String.length p0)
    by (unfold sep; simpl; lia).
  rewrite splitFrom_skip. reflexivity.
Qed.

(** Bytes other than the first byte of the separator go to the piece. *)
Lemma splitFrom_scan (a : string) : forall cur s,
  hasChar c0 a = false ->
  splitFrom sep 0 cur (a ++ s) = splitFrom sep 0 (cur ++ a) s.
Proof.
  induction a as [|c a IH]; intros cur s H; simpl in H.
  - rewrite app_empty_r. reflexivity.
  - apply orb_false_iff in H. destruct H as [Hc Ha].
    cbn [append splitFrom]. unfold sep at 1. rewrite (prefix_other _ _ _ _ Hc).
    fold sep. rewrite (IH _ _ Ha), app_assoc_s. reflexivity.
Qed.

Lemma splitFrom_nonempty : forall s k cur, splitFrom sep k cur s <> [].
Proof.
  induction s as [|c s IH]; intros k cur; cbn [splitFrom].
  - discriminate.
  - destruct k; [|apply IH].
    destruct (prefix sep (String c s)); [discriminate|apply IH].
Qed.

(** A text in which the separator does not occur is one piece. *)
Lemma splitFrom_absent (s0 : string) : forall s cur,
  s0 = cur ++ s ->
  (forall a b, s0 <> a ++ sep ++ b) ->
  splitFrom sep 0 cur s = [s0].
Proof.
  induction s as [|c s IH]; intros cur E Habs.
  - simpl. rewrite app_empty_r in E. subst. reflexivity.
  - cbn [splitFrom]. destruct (prefix sep (String c s)) eqn:P.
    + destruct (prefix_exists _ _ P) as [b Hb]. exfalso.
      apply (Habs cur b). rewrite E, Hb. reflexivity.
    + apply IH; [|exact Habs]. rewrite E, app_assoc_s. reflexivity.
Qed.

End Separator.

Lemma Split_cons (c0 : ascii) (a b : string) :
  hasChar c0 a = false ->
  Split (a ++ String c0 EmptyString ++ b) (String c0 EmptyString) =
  a :: Split b (String c0 EmptyString).
Proof.
  intro H. unfold Split. rewrite (splitFrom_scan c0 EmptyString a _ _ H).
  rewrite splitFrom_sep. reflexivity.
Qed.

Lemma Split_one (c0 : ascii) (a : string) :
  hasChar c0 a = false -> Split a (String c0 EmptyString) = [a].
Proof.
  intro H. unfold Split.
  rewrite <- (app_empty_r a) at 1.
  rewrite (splitFrom_scan c0 EmptyString a _ _ H). reflexivity.
Qed.

(** ** Rows and lines *)

Lemma rowOk_spec (r : Row) :
  rowOk r = true ->
  hasChar " " (symbols r) = false /\
  hasChar (ascii_of_nat 10) (symbols r) = false /\
  hasChar " " (second r) = false /\
  hasChar (ascii_of_nat 10) (second r) = false /\
  hasChar (ascii_of_nat 10) (tail r) = false /\
  (tail r = EmptyString \/ exists t, tail r = String " " t).
Proof.
  unfold rowOk. rewrite !andb_true_iff, !negb_true_iff.
  intros [[[[[H1 H2] H3] H4] H5] H6]. repeat split; auto.
  destruct (tail r) as [|c t]; [left; reflexivity|right].
  apply Ascii.eqb_eq in H6. subst c. exists t. reflexivity.
Qed.

(** The first two fields of a row are its symbols and its second field. *)
Lemma row_split (r : Row) :
  rowOk r = true ->
  exists rest, Split (rowText r) " " = symbols r :: second r :: rest.
Proof.
  intro H. destruct (rowOk_spec r H) as (H1 & _ & H3 & _ & _ & Ht).
  unfold rowText. rewrite (Split_cons " " _ _ H1).
  destruct Ht as [->|[t ->]].
  - rewrite app_empty_r, (Split_one " " _ H3). exists []. reflexivity.
  - change (second r ++ String " " t) with (second r ++ " " ++ t).
    rewrite (Split_cons " " _ _ H3). eexists. reflexivity.
Qed.

Lemma rowText_lineOk (r : Row) : rowOk r = true -> lineOk (rowText r) = true.
Proof.
  intro H. destruct (rowOk_spec r H) as (_ & H2 & _ & H4 & H5 & _).
  unfold lineOk, rowText. rewrite !hasChar_app, H2, H4, H5. simpl.
  destruct (symbols r); reflexivity.
Qed.

Lemma lineOk_spec (x : string) :
  lineOk x = true ->
  hasChar (ascii_of_nat 10) x = false /\
  exists c y, x = String c y /\ Ascii.eqb c (ascii_of_nat 10) = false.
Proof.
  unfold lineOk. rewrite andb_true_iff, !negb_true_iff. intros [H1 H2].
  split; [exact H1|]. destruct x as [|c y]; [discriminate|].
  exists c, y. split; [reflexivity|]. simpl in H1.
  apply orb_false_iff in H1. apply H1.
Qed.

(** The inner loop counts the five result symbols. *)
Lemma count_fold (sym : string) : forall pa sk fa un pe ns bottom,
  fold_left countResult (Split sym EmptyString)
    (mkProgressOutput pa sk fa un pe ns bottom) =
  mkProgressOutput (pa + countChar "." sym) (sk + countChar "-" sym)
    (fa + countChar "F" sym) (un + countChar "U" sym)
    (pe + countChar "P" sym) ns bottom.
Proof.
  unfold Split.
  induction sym as [|c sym IH]; intros pa sk fa un pe ns bottom.
  - simpl. f_equal; lia.
  - cbn [list_ascii_of_string map fold_left countChar].
    unfold countResult at 2. cbn [String.eqb].
    destruct (Ascii.eqb c ".") eqn:E1; cbv iota.
    { apply Ascii.eqb_eq in E1. subst c. rewrite IH. simpl. f_equal; lia. }
    destruct (Ascii.eqb c "-") eqn:E2; cbv iota.
    { apply Ascii.eqb_eq in E2. subst c. rewrite IH. simpl. f_equal; lia. }
    destruct (Ascii.eqb c "F") eqn:E3; cbv iota.
    { apply Ascii.eqb_eq in E3. subst c. rewrite IH. simpl. f_equal; lia. }
    destruct (Ascii.eqb c "U") eqn:E4; cbv iota.
    { apply Ascii.eqb_eq in E4. subst c. rewrite IH. simpl. f_equal; lia. }
    destruct (Ascii.eqb c "P") eqn:E5; cbv iota.
    { apply Ascii.eqb_eq in E5. subst c. rewrite IH. simpl. f_equal; lia. }
    rewrite IH. simpl. f_equal; lia.
Qed.

Lemma parseRows_rows (rows : list Row) : forall pa sk fa un pe ns bottom,
  forallb rowOk rows = true ->
  parseRows (map rowText rows) (mkProgressOutput pa sk fa un pe ns bottom) =
  inl (mkProgressOutput
         (pa + sumOver (fun r => countChar "." (symbols r)) rows)
         (sk + sumOver (fun r => countChar "-" (symbols r)) rows)
         (fa + sumOver (fun r => countChar "F" (symbols r)) rows)
         (un + sumOver (fun r => countChar "U" (symbols r)) rows)
         (pe + sumOver (fun r => countChar "P" (symbols r)) rows)
         (ns ++ map second rows)%list bottom).
Proof.
  induction rows as [|r rows IH]; intros pa sk fa un pe ns bottom H.
  - simpl. rewrite List.app_nil_r, !Nat.add_0_r. reflexivity.
  - simpl in H. apply andb_true_iff in H. destruct H as [Hr Hrows].
    cbn [map parseRows]. destruct (row_split r Hr) as [rest ->].
    rewrite count_fold, (IH _ _ _ _ _ _ _ Hrows). simpl.
    rewrite <- List.app_assoc. simpl. rewrite !Nat.add_assoc. reflexivity.
Qed.

Lemma Split_lines (lines : list string) :
  lines <> [] -> forallb lineOk lines = true ->
  Split (String.concat nl lines) nl = lines.
Proof.
  induction lines as [|x lines IH]; intros Hne H; [contradiction|].
  simpl in H. apply andb_true_iff in H. destruct H as [Hx Hl].
  destruct (lineOk_spec x Hx) as [Hnl _].
  destruct lines as [|y lines].
  - simpl. apply (Split_one (ascii_of_nat 10)). exact Hnl.
  - change (String.concat nl (x :: y :: lines))
      with (x ++ nl ++ String.concat nl (y :: lines)).
    unfold nl at 1 3.
    rewrite (Split_cons (ascii_of_nat 10) _ _ Hnl). f_equal.
    apply IH; [discriminate|exact Hl].
Qed.

Lemma prefix_same (a : ascii) (p s : string) :
  prefix (String a p) (String a s) = prefix p s.
Proof.
  cbn [prefix]. destruct (ascii_dec a a); [reflexivity|contradiction].
Qed.

Lemma splitFrom_step (sep : string) (c : ascii) (r cur : string) :
  prefix sep (String c r) = false ->
  splitFrom sep 0 cur (String c r) =
  splitFrom sep 0 (cur ++ String c EmptyString) r.
Proof. cbn [splitFrom]. intros ->. reflexivity. Qed.

Lemma prefix_blank_single (c : ascii) (z : string) :
  Ascii.eqb c (ascii_of_nat 10) = false ->
  prefix blank (String (ascii_of_nat 10) (String c z)) = false.
Proof.
  intro H.
  change blank
    with (String (ascii_of_nat 10) (String (ascii_of_nat 10) nl)).
  rewrite prefix_same. apply prefix_other. exact H.
Qed.

(** The top part ends at the separator that follows its last line. *)
Lemma blank_split (bottom : string) (lines : list string) : forall cur,
  lines <> [] -> forallb lineOk lines = true ->
  splitFrom blank 0 cur (String.concat nl lines ++ blank ++ bottom) =
  (cur ++ String.concat nl lines) :: splitFrom blank 0 EmptyString bottom.
Proof.
  induction lines as [|x lines IH]; intros cur Hne H; [contradiction|].
  simpl in H. apply andb_true_iff in H. destruct H as [Hx Hl].
  destruct (lineOk_spec x Hx) as [Hnl _].
  destruct lines as [|y lines].
  - cbn [String.concat].
    change blank with (String (ascii_of_nat 10) (nl ++ nl)).
    rewrite (splitFrom_scan _ _ _ _ _ Hnl), splitFrom_sep. reflexivity.
  - change (String.concat nl (x :: y :: lines))
      with (x ++ nl ++ String.concat nl (y :: lines)).
    rewrite !app_assoc_s.
    assert (Hl' := Hl). simpl in Hl'. apply andb_true_iff in Hl'.
    destruct Hl' as [Hy _].
    destruct (lineOk_spec y Hy) as [_ (c & y' & Ey & Hc)].
    assert (Z : exists z,
               String.concat nl (y :: lines) ++ blank ++ bottom = String c z).
    { rewrite Ey. destruct lines; simpl; eexists; reflexivity. }
    destruct Z as [z Ez].
    change blank with (String (ascii_of_nat 10) (nl ++ nl)) at 1.
    rewrite (splitFrom_scan _ _ _ _ _ Hnl).
    change (String (ascii_of_nat 10) (nl ++ nl)) with blank.
    rewrite Ez.
    change (nl ++ String c z) with (String (ascii_of_nat 10) (String c z)).
    rewrite (splitFrom_step _ _ _ _ (prefix_blank_single _ _ Hc)).
    rewrite <- Ez.
    rewrite (IH _ ltac:(discriminate) Hl). rewrite !app_assoc_s. reflexivity.
Qed.

Lemma rows_lineOk (rows : list Row) :
  forallb rowOk rows = true -> forallb lineOk (map rowText rows) = true.
Proof.
  induction rows as [|r rows IH]; simpl; [reflexivity|].
  rewrite !andb_true_iff. intros [Hr Hrows].
  split; [apply rowText_lineOk, Hr | apply IH, Hrows].
Qed.

Lemma lines_app_ok (l1 l2 : list string) :
  forallb lineOk l1 = true -> forallb lineOk l2 = true ->
  forallb lineOk (l1 ++ l2)%list = true.
Proof. intros H1 H2. rewrite forallb_app, H1, H2. reflexivity. Qed.

(** The rows before a line without a space are read, then the index
    [rowParts[1]] is out of range. *)
Lemma parseRows_no_space (line : string) (rest : list string)
  (before : list Row) : forall p,
  forallb rowOk before = true -> hasChar " " line = false ->
  parseRows (map rowText before ++ line :: rest)%list p = inr indexOutOfRange.
Proof.
  induction before as [|r before IH]; intros p Hb Hl.
  - cbn [map List.app parseRows]. rewrite (Split_one " " _ Hl). reflexivity.
  - simpl in Hb. apply andb_true_iff in Hb. destruct Hb as [Hr Hb].
    cbn [map List.app parseRows]. destruct (row_split r Hr) as [more ->].
    destruct p. apply IH; assumption.
Qed.

(** X16.  Reading back a progress output: when the top part is made of
    rows, each the result symbols, one space and more text on the same
    line, and is followed by the three-newline separator,
    [parseProgressOutput] returns the number of [.], [-], [F], [U] and [P]
    among the symbols of all rows as passed, skipped, failed, undefined and
    pending; for each row, the text between its first and second space as
    [noOfStepsPerRow]; and the lines up to the next separator as
    [bottomRows]. *)
Theorem parseProgressOutput_rows :
  forall (rows : list Row) (bottom : string),
    rows <> [] ->
    forallb rowOk rows = true ->
    parseProgressOutput
      (String.concat nl (map rowText rows) ++ blank ++ bottom) =
    inl (mkProgressOutput
           (sumOver (fun r => countChar "." (symbols r)) rows)
           (sumOver (fun r => countChar "-" (symbols r)) rows)
           (sumOver (fun r => countChar "F" (symbols r)) rows)
           (sumOver (fun r => countChar "U" (symbols r)) rows)
           (sumOver (fun r => countChar "P" (symbols r)) rows)
           (map second rows)
           (Split (hd EmptyString (Split bottom blank)) nl)).
Proof.
  intros rows bottom Hne Hok.
  assert (Hlines : map rowText rows <> []) by (destruct rows; [contradiction|discriminate]).
  unfold parseProgressOutput.
  change (Split (String.concat nl (map rowText rows) ++ blank ++ bottom) blank)
    with (splitFrom blank 0 EmptyString
            (String.concat nl (map rowText rows) ++ blank ++ bottom)).
  rewrite (blank_split bottom _ EmptyString Hlines (rows_lineOk rows Hok)).
  change (Split bottom blank) with (splitFrom blank 0 EmptyString bottom).
  pose proof (splitFrom_nonempty (ascii_of_nat 10) (nl ++ nl) bottom 0 EmptyString)
    as Hb.
  change (String (ascii_of_nat 10) (nl ++ nl)) with blank in Hb.
  destruct (splitFrom blank 0 EmptyString bottom) as [|m1 more]; [contradiction|].
  cbn [hd append].
  rewrite (Split_lines _ Hlines (rows_lineOk rows Hok)).
  rewrite (parseRows_rows rows _ _ _ _ _ _ _ Hok). reflexivity.
Qed.

Lemma parseProgressOutput_rows_witness :
  parseProgressOutput
    (String.concat nl
       (map rowText [mkRow "...F" "4" EmptyString; mkRow "-P." EmptyString "   7"])
     ++ blank ++ ("x" ++ nl ++ "y")) =
  inl (mkProgressOutput 4 1 1 0 1 ["4"; EmptyString] ["x"; "y"]).
Proof.
  apply (parseProgressOutput_rows
           [mkRow "...F" "4" EmptyString; mkRow "-P." EmptyString "   7"]
           ("x" ++ nl ++ "y")).
  - discriminate.
  - reflexivity.
Defined.

(** X17.  An output in which the three-newline separator does not occur
    makes [parseProgressOutput] panic: [mainParts[1]] is out of range. *)
Theorem parseProgressOutput_no_separator :
  forall (output : string),
    (forall a b, output <> a ++ blank ++ b) ->
    parseProgressOutput output = inr indexOutOfRange.
Proof.
  intros output H. unfold parseProgressOutput.
  change (Split output blank) with (splitFrom blank 0 EmptyString output).
  change blank with (String (ascii_of_nat 10) (nl ++ nl)).
  rewrite (splitFrom_absent (ascii_of_nat 10) (nl ++ nl) output output EmptyString
             eq_refl H).
  reflexivity.
Qed.

Lemma parseProgressOutput_no_separator_witness :
  parseProgressOutput ". 1" = inr indexOutOfRange.
Proof.
  apply (parseProgressOutput_no_separator ". 1").
  intros a b H.
  destruct a as [|c1 [|c2 [|c3 [|c4 a]]]]; simpl in H; discriminate H.
Defined.

(** X18.  A top part with a line that holds no space makes
    [parseProgressOutput] panic, whatever the rows before it and the lines
    after it: [rowParts[1]] is out of range. *)
Theorem parseProgressOutput_row_without_space :
  forall (before : list Row) (line : string) (rest : list string)
         (bottom : string),
    forallb rowOk before = true ->
    lineOk line = true ->
    hasChar " " line = false ->
    forallb lineOk rest = true ->
    parseProgressOutput
      (String.concat nl (map rowText before ++ line :: rest)%list
       ++ blank ++ bottom) =
    inr indexOutOfRange.
Proof.
  intros before line rest bottom Hb Hline Hsp Hrest.
  assert (Hne : (map rowText before ++ line :: rest)%list <> [])
    by (destruct before; discriminate).
  assert (Hok : forallb lineOk (map rowText before ++ line :: rest)%list = true).
  { apply lines_app_ok; [apply rows_lineOk, Hb|].
    simpl. rewrite Hline, Hrest. reflexivity. }
  unfold parseProgressOutput.
  change (Split (String.concat nl (map rowText before ++ line :: rest)%list
                 ++ blank ++ bottom) blank)
    with (splitFrom blank 0 EmptyString
            (String.concat nl (map rowText before ++ line :: rest)%list
             ++ blank ++ bottom)).
  rewrite (blank_split bottom _ EmptyString Hne Hok).
  pose proof (splitFrom_nonempty (ascii_of_nat 10) (nl ++ nl) bottom 0 EmptyString)
    as Hbn.
  change (String (ascii_of_nat 10) (nl ++ nl)) with blank in Hbn.
  destruct (splitFrom blank 0 EmptyString bottom) as [|m1 more]; [contradiction|].
  cbn [append]. rewrite (Split_lines _ Hne Hok).
  apply parseRows_no_space; assumption.
Qed.

Lemma parseProgressOutput_row_without_space_witness :
  parseProgressOutput
    (String.concat nl
       (map rowText [mkRow ".." "2" EmptyString] ++ ["...."; "x y z"])%list
     ++ blank ++ "bottom") =
  inr indexOutOfRange.
Proof.
  apply (parseProgressOutput_row_without_space
           [mkRow ".." "2" EmptyString] "...." ["x y z"] "bottom");
    reflexivity.
Defined.

End RunTestFacts.
